(** * The incremental CVE sync and triage engine of [internal/worker/update.go]

    A shallow embedding of [doUpdate] and of the functions it calls
    ([repoCVEFiles], [walkFiles], [groupFilesByDirectory], [updateDirectory],
    [updateBatch], [handleCVE]), followed by the properties of the engine.

    Go strings are byte strings: they are modelled by [string], whose
    characters are the 256 values of [ascii].  Go's [int] is the 64-bit
    integer of the platforms the worker runs on; it is modelled by [Z], and
    the only place where the width matters ([strconv.Atoi], which rejects
    values outside the range) has the range check written out.  Counters are
    bounded by the length of a slice and cannot wrap. *)

From Stdlib Require Import ZArith Ascii List Bool Lia Sorted Permutation.
From stdpp Require Import base option list gmap strings fin_maps.

Open Scope Z_scope.

(** ** Results

    A Go call either returns its values with a nil error, returns an error,
    or panics (a slice expression out of range, an index into an empty
    slice).  [Err] carries the text of the error, [Panic] the text of the
    run-time panic. *)

Inductive Res (A : Type) : Type :=
| Ok (a : A)
| Err (e : string)
| Panic (msg : string).

Arguments Ok {A} a.
Arguments Err {A} e.
Arguments Panic {A} msg.

Definition bindRes {A B : Type} (r : Res A) (k : A -> Res B) : Res B :=
  match r with
  | Ok a => k a
  | Err e => Err e
  | Panic m => Panic m
  end.

Notation "'let?' x ':=' r 'in' k" := (bindRes r (fun x => k))
  (at level 10, x pattern, r at level 100, k at level 200).

(** [derrors.Wrap(&err, format, args...)]: a non-nil error is prefixed with
    the formatted text and a colon; a panic passes through. *)
Definition Wrap {A : Type} (prefix : string) (r : Res A) : Res A :=
  match r with
  | Err e => Err (prefix +:+ ": " +:+ e)
  | other => other
  end.

(** ** Strings: the parts of Go's [strings], [path] and [strconv] in use *)

Definition dquote : string := String (ascii_of_nat 34) EmptyString.

(** [%q] on a string of printable characters with neither quote nor
    backslash: the string between double quotes. *)
Definition quote (s : string) : string := dquote +:+ s +:+ dquote.

Definition len (s : string) : nat := String.length s.

(** [s[lo:hi]]: Go panics unless [lo <= hi <= len(s)]. *)
Definition slice (s : string) (lo hi : nat) : Res string :=
  if Nat.leb lo hi && Nat.leb hi (len s)
  then Ok (String.substring lo (hi - lo)%nat s)
  else Panic ("runtime error: slice bounds out of range").

(** [strings.HasPrefix(s, p)]. *)
Definition HasPrefix (s p : string) : bool := String.prefix p s.

(** [strings.TrimSuffix(s, suffix)]. *)
Definition TrimSuffix (s suffix : string) : string :=
  let n := len s in
  let k := len suffix in
  if Nat.leb k n && String.eqb (String.substring (n - k)%nat k s) suffix
  then String.substring 0 (n - k)%nat s
  else s.

(** The loop of [path.Ext]: [i] runs from the last byte down to the first,
    stops at a slash and returns [path[i:]] at a dot.  [before] holds
    [path[:i+1]] reversed and [after] holds [path[i+1:]]. *)
Fixpoint extLoop (before : list ascii) (after : string) : string :=
  match before with
  | [] => ""
  | c :: before' =>
      if Ascii.eqb c "/"%char then ""
      else if Ascii.eqb c "."%char then String c after
      else extLoop before' (String c after)
  end.

(** [path.Ext(path)]. *)
Definition Ext (path : string) : string :=
  extLoop (rev (String.list_ascii_of_string path)) "".

(** [path[i+1:]] for the last slash [i] of [path]; [path] itself when it
    has none ([strings.LastIndexByte] returns -1). *)
Fixpoint afterLastSlash (before : list ascii) (after : string) : string :=
  match before with
  | [] => after
  | c :: before' =>
      if Ascii.eqb c "/"%char then after else afterLastSlash before' (String c after)
  end.

Fixpoint stripSlashes (before : list ascii) : list ascii :=
  match before with
  | c :: before' => if Ascii.eqb c "/"%char then stripSlashes before' else before
  | [] => []
  end.

(** [path.Base(path)]. *)
Definition Base (path : string) : string :=
  if String.eqb path "" then "."
  else
    let stripped := stripSlashes (rev (String.list_ascii_of_string path)) in
    let last := afterLastSlash stripped "" in
    if String.eqb last "" then "/" else last.

(** [path.Join(dir, name)] on two elements that are already clean, as the
    names of git tree entries are (no slash, never "." or ".."): an empty
    element is dropped, the others are joined by a slash. *)
Definition pathJoin (dir name : string) : string :=
  if String.eqb dir "" then name
  else if String.eqb name "" then dir
  else dir +:+ "/" +:+ name.

Definition maxInt : Z := 9223372036854775807.
Definition minInt : Z := -9223372036854775808.

Definition digitVal (c : ascii) : option Z :=
  let n := Z.of_N (N_of_ascii c) in
  if (48 <=? n) && (n <=? 57) then Some (n - 48) else None.

Fixpoint parseDigits (s : string) (acc : Z) : option Z :=
  match s with
  | EmptyString => Some acc
  | String c rest =>
      match digitVal c with
      | Some d => parseDigits rest (10 * acc + d)
      | None => None
      end
  end.

Definition syntaxError (s : string) : string :=
  "strconv.Atoi: parsing " +:+ quote s +:+ ": invalid syntax".

Definition rangeError (s : string) : string :=
  "strconv.Atoi: parsing " +:+ quote s +:+ ": value out of range".

(** [strconv.Atoi(s)]: an optional sign, then at least one decimal digit and
    nothing else; the value has to fit Go's [int]. *)
Definition Atoi (s : string) : Res Z :=
  let '(neg, digits) :=
    match s with
    | String "-"%char rest => (true, rest)
    | String "+"%char rest => (false, rest)
    | _ => (false, s)
    end in
  match digits with
  | EmptyString => Err (syntaxError s)
  | _ =>
      match parseDigits digits 0 with
      | None => Err (syntaxError s)
      | Some n =>
          let v := if neg then - n else n in
          if (minInt <=? v) && (v <=? maxInt) then Ok v else Err (rangeError s)
      end
  end.

(** [idFromFilename] extracts the CVE ID from its filename. *)
Definition idFromFilename (name : string) : string :=
  TrimSuffix (Base name) (Ext name).

(** [isCVEFilename] reports whether name is the basename of a CVE file. *)
Definition isCVEFilename (name : string) : bool :=
  HasPrefix name "CVE-" && String.eqb (Ext name) ".json".


(** ** Git objects

    [plumbing.Hash] is an array of 20 bytes and [Hash.String] its
    hexadecimal form, two lower-case digits per byte. *)

Definition Hash : Type := list Byte.byte.

Definition hexDigit (n : N) : ascii :=
  match n with
  | 0 => "0" | 1 => "1" | 2 => "2" | 3 => "3" | 4 => "4" | 5 => "5"
  | 6 => "6" | 7 => "7" | 8 => "8" | 9 => "9" | 10 => "a" | 11 => "b"
  | 12 => "c" | 13 => "d" | 14 => "e" | _ => "f"
  end%N%char.

Fixpoint HashString (h : Hash) : string :=
  match h with
  | [] => ""
  | b :: rest =>
      let n := Byte.to_N b in
      String (hexDigit (n / 16)) (String (hexDigit (n mod 16)) (HashString rest))
  end.

(** [filemode.FileMode]. *)
Inductive FileMode : Type :=
| Empty | Dir | Regular | Deprecated | Executable | Symlink | Submodule.

Definition isDir (m : FileMode) : bool :=
  match m with Dir => true | _ => false end.

(** [object.Tree] with its [Entries].  An entry carries, next to its name,
    mode and hash, what [repo.TreeObject(e.Hash)] returns for it; the walk
    asks for it on directory entries only.  Git objects are content
    addressed, so a tree never contains itself and this unfolding is
    finite. *)
Inductive Tree : Type :=
| mkTree (treeHash : Hash) (Entries : list TreeEntry)
with TreeEntry : Type :=
| mkTreeEntry (Name : string) (Mode : FileMode) (entryHash : Hash)
              (TreeObject : Res Tree).

(** [cveschema.CVE], the decoded JSON document: the fields the worker
    reads, the ID and the publication state of its metadata. *)
Module cveschema.
Record CVE : Type := mkCVE { ID : string; State : string }.

(** Modelled from the spec: the constant [cveschema.StatePublic] is
    declared outside the worker; the publication state it names is
    "public". *)
Definition StatePublic : string := "public".
End cveschema.

(** [object.Commit]: its hash, the hash of its root tree, the committer's
    time stamp, and what [repo.TreeObject(commit.TreeHash)] returns. *)
Record Commit : Type := mkCommit {
  commitHash : Hash;
  TreeHash : Hash;
  CommitterWhen : Z;
  rootTree : Res Tree
}.

(** [git.Repository] as the worker uses it.  [blobCVE] stands for
    [repo.BlobObject(hash)], [blob.Reader()] and the JSON decoding of the
    bytes read into a [cveschema.CVE]; the three can each fail, the first
    two in [blobReader] and the last in [handleCVE]. *)
Record Repository : Type := mkRepository {
  CommitObject : Hash -> Res Commit;
  BlobObject : Hash -> Res (Res cveschema.CVE)
}.

(** [repoFile]. *)
Record repoFile : Type := mkRepoFile {
  dirPath : string;
  filename : string;
  treeHash : Hash;
  blobHash : Hash;
  year : Z;
  number : Z
}.

(** [walkFiles] collects CVE files from a repo tree. *)
Fixpoint walkFiles (tree : Tree) (dirpath : string) (files : list repoFile)
  {struct tree} : Res (list repoFile) :=
  match tree with
  | mkTree thash entries =>
      (fix walkEntries (es : list TreeEntry) (files : list repoFile)
         {struct es} : Res (list repoFile) :=
         match es with
         | [] => Ok files
         | mkTreeEntry name mode ehash obj :: es' =>
             if isDir mode then
               let? dir := obj in
               let? files := walkFiles dir (pathJoin dirpath name) files in
               walkEntries es' files
             else if isCVEFilename name then
               let? y := slice name 4 8 in
               let? year := Atoi y in
               let? n := slice name 9 (len name - 5)%nat in
               let? number := Atoi n in
               walkEntries es'
                 (files ++ [ {| dirPath := dirpath; filename := name;
                                treeHash := thash; blobHash := ehash;
                                year := year; number := number |} ])
             else walkEntries es' files
         end) entries files
  end.


(** The loop of [walkFiles] over the entries of the tree with hash [thash],
    by itself: [walkFiles (mkTree thash entries) dirpath files] is
    [walkEntries thash dirpath entries files]. *)
Definition walkEntries (thash : Hash) (dirpath : string)
  : list TreeEntry -> list repoFile -> Res (list repoFile) :=
  fix walkEntries (es : list TreeEntry) (files : list repoFile)
    {struct es} : Res (list repoFile) :=
    match es with
    | [] => Ok files
    | mkTreeEntry name mode ehash obj :: es' =>
        if isDir mode then
          let? dir := obj in
          let? files := walkFiles dir (pathJoin dirpath name) files in
          walkEntries es' files
        else if isCVEFilename name then
          let? y := slice name 4 8 in
          let? year := Atoi y in
          let? n := slice name 9 (len name - 5)%nat in
          let? number := Atoi n in
          walkEntries es'
            (files ++ [ {| dirPath := dirpath; filename := name;
                           treeHash := thash; blobHash := ehash;
                           year := year; number := number |} ])
        else walkEntries es' files
    end.

(** The names of the entries of a tree that the walk takes for CVE files:
    the entries that are not directories and pass [isCVEFilename], in the
    tree and in the directories below it. *)
Fixpoint leafNames (tree : Tree) : list string :=
  match tree with
  | mkTree _ entries =>
      (fix leafEntries (es : list TreeEntry) : list string :=
         match es with
         | [] => []
         | mkTreeEntry name mode _ obj :: es' =>
             (if isDir mode then
                match obj with Ok dir => leafNames dir | _ => [] end
              else if isCVEFilename name then [name] else [])
             ++ leafEntries es'
         end) entries
  end.

Definition leafEntries : list TreeEntry -> list string :=
  fix leafEntries (es : list TreeEntry) : list string :=
    match es with
    | [] => []
    | mkTreeEntry name mode _ obj :: es' =>
        (if isDir mode then
           match obj with Ok dir => leafNames dir | _ => [] end
         else if isCVEFilename name then [name] else [])
        ++ leafEntries es'
    end.

(** [parsedAs name f]: the file [f] has the name [name], its year is what
    [strconv.Atoi] makes of [name[4:8]] and its number what it makes of
    [name[9:len(name)-5]], both slices being within the name. *)
Definition parsedAs (name : string) (f : repoFile) : Prop :=
  filename f = name ∧
  (∃ y, slice name 4 8 = Ok y ∧ Atoi y = Ok (year f)) ∧
  (∃ n, slice name 9 (len name - 5)%nat = Ok n ∧ Atoi n = Ok (number f)).

(** The comparison passed to [sort.Slice] in [repoCVEFiles]: compare the
    year and the number, as ints. *)
Definition less (a b : repoFile) : bool :=
  if negb (year a =? year b) then year a <? year b else number a <? number b.

(** [sort.Slice] belongs to Go's library: a comparison sort that is not
    stable.  It is modelled by insertion sort, which the library itself
    runs on short slices; the properties below rest on the result being a
    permutation of the input ordered by the comparison, not on the place
    of files with equal keys. *)
Fixpoint insertSorted {A : Type} (lt : A -> A -> bool) (x : A) (l : list A) : list A :=
  match l with
  | [] => [x]
  | y :: l' => if lt x y then x :: l else y :: insertSorted lt x l'
  end.

Definition sortSlice {A : Type} (lt : A -> A -> bool) (l : list A) : list A :=
  fold_left (fun sorted x => insertSorted lt x sorted) l [].

(** [repoCVEFiles] returns all the CVE files in the given repo commit,
    sorted by name. *)
Definition repoCVEFiles (commit : Commit) : Res (list repoFile) :=
  Wrap ("repoCVEFiles(" +:+ HashString (commitHash commit) +:+ ")")
    (let? root :=
       match rootTree commit with
       | Err e => Err ("TreeObject: " +:+ e)
       | r => r
       end in
     let? files := walkFiles root "" [] in
     Ok (sortSlice less files)).

(** The first loop of [groupFilesByDirectory]: [result] and [curDir] are
    the two variables of the same names. *)
Fixpoint groupLoop (files : list repoFile) (result : list (list repoFile))
  (curDir : list repoFile) : list (list repoFile) * list repoFile :=
  match files with
  | [] => (result, curDir)
  | f :: files' =>
      match curDir with
      | c :: _ =>
          if negb (String.eqb (dirPath f) (dirPath c))
          then groupLoop files' (result ++ [curDir]) [f]
          else groupLoop files' result (curDir ++ [f])
      | [] => groupLoop files' result [f]
      end
  end.

(** The second loop: [seen] is the map of the directory paths met so far.
    [dir[0]] panics on an empty group. *)
Fixpoint checkSeen (dirs : list (list repoFile)) (seen : gset string) : Res unit :=
  match dirs with
  | [] => Ok tt
  | dir :: dirs' =>
      match dir with
      | [] => Panic "runtime error: index out of range [0] with length 0"
      | d0 :: _ =>
          if decide (dirPath d0 ∈ seen)
          then Err ("directory " +:+ dirPath d0 +:+
                    " is not contiguous in the sorted list of files")
          else checkSeen dirs' ({[ dirPath d0 ]} ∪ seen)
      end
  end.

(** [groupFilesByDirectory] collects files by directory, verifying that
    directories are contiguous in the list of files. *)
Definition groupFilesByDirectory (files : list repoFile) : Res (list (list repoFile)) :=
  match files with
  | [] => Ok []
  | _ =>
      let '(result, curDir) := groupLoop files [] [] in
      let result := match curDir with [] => result | _ => result ++ [curDir] end in
      let? _ := checkSeen result ∅ in
      Ok result
  end.

(** ** The store

    The package [store] is a collaborator of the worker: its records and
    its [Store] and [Transaction] interfaces are declared outside
    [update.go]. *)
Module store.

(** Modelled from the spec: the triage states, "finite enum ...
    NoActionNeeded, NeedsIssue, IssueCreated, UpdatedSinceIssueCreation".
    [TriageState] is a string type in the code, which switches on it with
    a default case. *)
Definition TriageState : Type := string.
Definition TriageStateNoActionNeeded : TriageState := "NoActionNeeded".
Definition TriageStateNeedsIssue : TriageState := "NeedsIssue".
Definition TriageStateIssueCreated : TriageState := "IssueCreated".
Definition TriageStateUpdatedSinceIssueCreation : TriageState :=
  "UpdatedSinceIssueCreation".

(** Modelled from the spec: the stored record, "identifier (unique key),
    source path, file content-hash, publication state, the commit hash at
    which it was last touched, a triage state, and an optional free-text
    triage reason". *)
Module CVERecord.
Record t : Type := mk {
  ID : string;
  Path : string;
  BlobHash : string;
  CommitHash : string;
  CVEState : string;
  TriageState : TriageState;
  TriageStateReason : string
}.

(** Assignments to one field. *)
Definition setPath (v : string) (r : t) : t :=
  mk (ID r) v (BlobHash r) (CommitHash r) (CVEState r) (TriageState r)
     (TriageStateReason r).
Definition setBlobHash (v : string) (r : t) : t :=
  mk (ID r) (Path r) v (CommitHash r) (CVEState r) (TriageState r)
     (TriageStateReason r).
Definition setCommitHash (v : string) (r : t) : t :=
  mk (ID r) (Path r) (BlobHash r) v (CVEState r) (TriageState r)
     (TriageStateReason r).
Definition setCVEState (v : string) (r : t) : t :=
  mk (ID r) (Path r) (BlobHash r) (CommitHash r) v (TriageState r)
     (TriageStateReason r).
Definition setTriageState (v : string) (r : t) : t :=
  mk (ID r) (Path r) (BlobHash r) (CommitHash r) (CVEState r) v
     (TriageStateReason r).
Definition setTriageStateReason (v : string) (r : t) : t :=
  mk (ID r) (Path r) (BlobHash r) (CommitHash r) (CVEState r)
     (TriageState r) v.
End CVERecord.

(** Modelled from the spec: [store.NewCVERecord] is not part of
    [update.go]; it copies the identifier and the publication state of the
    decoded document, the path and the file hash, and leaves the other
    fields at their zero values. *)
Definition NewCVERecord (cve : cveschema.CVE) (path blobHash : string) : CVERecord.t :=
  {| CVERecord.ID := cveschema.ID cve;
     CVERecord.Path := path;
     CVERecord.BlobHash := blobHash;
     CVERecord.CommitHash := "";
     CVERecord.CVEState := cveschema.State cve;
     CVERecord.TriageState := "";
     CVERecord.TriageStateReason := "" |}.

(** Modelled from the spec: the run record, "start/end timestamps, the
    target commit identifier and its timestamp,
    total/processed/added/modified counts, and an optional terminal error
    message".  A time is a number of ticks; 0 is Go's zero [time.Time]. *)
Module CommitUpdateRecord.
Record t : Type := mk {
  StartedAt : Z;
  EndedAt : Z;
  CommitHash : string;
  CommitTime : Z;
  NumTotal : Z;
  NumProcessed : Z;
  NumAdded : Z;
  NumModified : Z;
  Error : string
}.

Definition setError (v : string) (r : t) : t :=
  mk (StartedAt r) (EndedAt r) (CommitHash r) (CommitTime r) (NumTotal r)
     (NumProcessed r) (NumAdded r) (NumModified r) v.
Definition setEndedAt (v : Z) (r : t) : t :=
  mk (StartedAt r) v (CommitHash r) (CommitTime r) (NumTotal r)
     (NumProcessed r) (NumAdded r) (NumModified r) (Error r).
(** [ur.NumProcessed += p; ur.NumAdded += a; ur.NumModified += m]. *)
Definition addCounts (p a m : Z) (r : t) : t :=
  mk (StartedAt r) (EndedAt r) (CommitHash r) (CommitTime r) (NumTotal r)
     (NumProcessed r + p) (NumAdded r + a) (NumModified r + m) (Error r).
End CommitUpdateRecord.

(** A write buffered by a transaction. *)
Inductive Write : Type :=
| CreateCVE (r : CVERecord.t)
| SetCVE (r : CVERecord.t).

Definition written (w : Write) : CVERecord.t :=
  match w with CreateCVE r => r | SetCVE r => r end.

(** What the store was asked to do, in order.  The journal is a ghost of
    the model: no operation reads it. *)
Inductive Event : Type :=
| CreateCommitUpdateRecordEv (ur : CommitUpdateRecord.t)
| SetCommitUpdateRecordEv (ur : CommitUpdateRecord.t)
| SetDirectoryHashEv (path hash : string)
| CommitEv (writes : list Write)
| AbortEv.

(** Modelled from the spec: the store, which "must expose: (a) atomic
    multi-key transactions supporting bulk range-read by sorted identifier
    and individual create/update of a stored record; (b) independent
    get/set of a directory-hash marker keyed by path; (c) independent
    create/update of a run record keyed by commit identifier".  Stored
    records are keyed by their ID.  The operations of this store do not
    fail; the worker's code for their errors is kept. *)
Record MemStore : Type := mkMemStore {
  cveRecords : gmap string CVERecord.t;
  dirHashes : gmap string string;
  updateRecords : gmap string CommitUpdateRecord.t;
  journal : list Event
}.

Definition emptyStore : MemStore :=
  {| cveRecords := ∅; dirHashes := ∅; updateRecords := ∅; journal := [] |}.

(** Modelled from the spec: "independent create/update of a run record
    keyed by commit identifier". *)
Definition CreateCommitUpdateRecord (ur : CommitUpdateRecord.t) (st : MemStore)
  : Res unit * MemStore :=
  (Ok tt,
   {| cveRecords := cveRecords st;
      dirHashes := dirHashes st;
      updateRecords := <[CommitUpdateRecord.CommitHash ur := ur]> (updateRecords st);
      journal := journal st ++ [CreateCommitUpdateRecordEv ur] |}).

Definition SetCommitUpdateRecord (ur : CommitUpdateRecord.t) (st : MemStore)
  : Res unit * MemStore :=
  (Ok tt,
   {| cveRecords := cveRecords st;
      dirHashes := dirHashes st;
      updateRecords := <[CommitUpdateRecord.CommitHash ur := ur]> (updateRecords st);
      journal := journal st ++ [SetCommitUpdateRecordEv ur] |}).

(** Modelled from the spec: "independent get/set of a directory-hash marker
    keyed by path".  The marker of a directory that has none is the empty
    string: "a non-empty directory hash means that we have fully processed
    the directory", says [updateDirectory]. *)
Definition GetDirectoryHash (dir : string) (st : MemStore) : Res string * MemStore :=
  (Ok (default "" (dirHashes st !! dir)), st).

Definition SetDirectoryHash (dir hash : string) (st : MemStore) : Res unit * MemStore :=
  (Ok tt,
   {| cveRecords := cveRecords st;
      dirHashes := <[dir := hash]> (dirHashes st);
      updateRecords := updateRecords st;
      journal := journal st ++ [SetDirectoryHashEv dir hash] |}).

(** Modelled from the spec: a transaction, "atomic read/modify/write over a
    bounded batch of keys".  It reads the records as they were when it
    began and buffers its writes. *)
Record Transaction : Type := mkTransaction {
  snapshot : gmap string CVERecord.t;
  writes : list Write
}.

(** Modelled from the spec: the "bulk range-read by sorted identifier".
    Identifiers are Go strings, [tx.GetCVERecords(startID, endID)] takes two
    of them, and a range of strings is a range in the order of Go strings,
    byte by byte: the order in which, as [repoCVEFiles] notes,
    CVE-2014-100009 comes before CVE-2014-10001. *)
Definition inRange (startID endID id : string) : bool :=
  String.leb startID id && String.leb id endID.

Definition GetCVERecords (startID endID : string) (tx : Transaction)
  : Res (list CVERecord.t) * Transaction :=
  (Ok (filter (fun r => inRange startID endID (CVERecord.ID r) = true)
         (map_to_list (snapshot tx)).*2), tx).

(** Modelled from the spec: "individual create/update of a stored record";
    both write the record under its ID. *)
Definition CreateCVERecord (r : CVERecord.t) (tx : Transaction) : Res unit * Transaction :=
  (Ok tt, {| snapshot := snapshot tx; writes := writes tx ++ [CreateCVE r] |}).

Definition SetCVERecord (r : CVERecord.t) (tx : Transaction) : Res unit * Transaction :=
  (Ok tt, {| snapshot := snapshot tx; writes := writes tx ++ [SetCVE r] |}).

Definition applyWrites (ws : list Write) (m : gmap string CVERecord.t)
  : gmap string CVERecord.t :=
  fold_left (fun m w => <[CVERecord.ID (written w) := written w]> m) ws m.

Definition begin (st : MemStore) : Transaction :=
  {| snapshot := cveRecords st; writes := [] |}.

Definition commit (tx : Transaction) (st : MemStore) : MemStore :=
  {| cveRecords := applyWrites (writes tx) (cveRecords st);
     dirHashes := dirHashes st;
     updateRecords := updateRecords st;
     journal := journal st ++ [CommitEv (writes tx)] |}.

Definition abort (st : MemStore) : MemStore :=
  {| cveRecords := cveRecords st;
     dirHashes := dirHashes st;
     updateRecords := updateRecords st;
     journal := journal st ++ [AbortEv] |}.

(** ** Code that runs against a state

    A computation on a state [S] returns a result and the state it
    leaves; after an error or a panic the effects made so far stay. *)
Definition M (S A : Type) : Type := S -> Res A * S.

Definition ret {S A : Type} (a : A) : M S A := fun s => (Ok a, s).

Definition bind {S A B : Type} (m : M S A) (k : A -> M S B) : M S B :=
  fun s =>
    match m s with
    | (Ok a, s') => k a s'
    | (Err e, s') => (Err e, s')
    | (Panic p, s') => (Panic p, s')
    end.

Definition fromRes {S A : Type} (r : Res A) : M S A := fun s => (r, s).

(** An operation of the store or of a transaction, run next to the state
    [T] of the triage function. *)
Definition onFst {X T A : Type} (op : X -> Res A * X) : M (X * T) A :=
  fun s => let (r, x') := op (fst s) in (r, (x', snd s)).

Definition wrapM {S A : Type} (prefix : string) (m : M S A) : M S A :=
  fun s => let (r, s') := m s in (Wrap prefix r, s').

(** Modelled from the spec: [RunTransaction] gives "atomicity (all writes
    in the batch commit or none do)".  The body runs once; what it did
    outside the store (the calls of the triage function) is not undone. *)
Definition RunTransaction {T A : Type} (f : M (Transaction * T) A) : M (MemStore * T) A :=
  fun s =>
    match f (begin (fst s), snd s) with
    | (Ok a, (tx, ts)) => (Ok a, (commit tx (fst s), ts))
    | (Err e, (_, ts)) => (Err e, (abort (fst s), ts))
    | (Panic p, (_, ts)) => (Panic p, (abort (fst s), ts))
    end.

End store.

Notation "x <- m ;; k" := (store.bind m (fun x => k))
  (at level 100, m at next level, right associativity).

(** ** The worker *)

Import store.

(** A [triageFunc] triages a CVE: it decides whether an issue needs to be
    filed.  A Go function value may have effects of its own; [T] is the
    state it keeps, so that a call leaves a trace there. *)
Definition triageFunc (T : Type) : Type := cveschema.CVE -> T -> Res bool * T.

Definition callTriage {X T : Type} (needsIssue : triageFunc T) (cve : cveschema.CVE)
  : M (X * T) bool :=
  fun s => let (r, ts) := needsIssue cve (snd s) in (r, (fst s, ts)).

(** [blobReader] returns a reader to the blob with the given hash. *)
Definition blobReader (repo : Repository) (hash : Hash) : Res (Res cveschema.CVE) :=
  BlobObject repo hash.

(** [fmt.Sprintf("%t", b)]. *)
Definition fmtBool (b : bool) : string := if b then "true" else "false".

(** The switch on [old.TriageState] in [handleCVE]. *)
Definition triageTransition (old : CVERecord.t) (needs : bool) (mod_ : CVERecord.t)
  : Res CVERecord.t :=
  let ts := CVERecord.TriageState old in
  if String.eqb ts TriageStateNoActionNeeded then
    Ok (if needs then CVERecord.setTriageState TriageStateNeedsIssue mod_ else mod_)
  else if String.eqb ts TriageStateNeedsIssue then
    Ok (if negb needs then CVERecord.setTriageState TriageStateNoActionNeeded mod_ else mod_)
  else if String.eqb ts TriageStateIssueCreated
          || String.eqb ts TriageStateUpdatedSinceIssueCreation then
    Ok (CVERecord.setTriageStateReason
          ("CVE changed; needs issue = " +:+ fmtBool needs)
          (CVERecord.setTriageState TriageStateUpdatedSinceIssueCreation mod_))
  else Err ("unknown TriageState: " +:+ quote ts).

(** [handleCVE] determines how to change the store for a single CVE. *)
Definition handleCVE {T : Type} (repo : Repository) (f : repoFile)
  (old : option CVERecord.t) (commitHash : Hash) (needsIssue : triageFunc T)
  : M (Transaction * T) bool :=
  wrapM ("handleCVE(" +:+ filename f +:+ ")")
    (r <- fromRes (blobReader repo (blobHash f));;
     let pathname := pathJoin (dirPath f) (filename f) in
     cve <- fromRes r;;
     needs <- (if String.eqb (cveschema.State cve) cveschema.StatePublic
               then callTriage needsIssue cve
               else ret false);;
     match old with
     | None =>
         let cr := NewCVERecord cve pathname (HashString (blobHash f)) in
         let cr := CVERecord.setCommitHash (HashString commitHash) cr in
         let cr :=
           CVERecord.setTriageState
             (if needs then TriageStateNeedsIssue else TriageStateNoActionNeeded) cr in
         _ <- onFst (CreateCVERecord cr);;
         ret true
     | Some old =>
         let mod_ := old in
         let mod_ := CVERecord.setPath pathname mod_ in
         let mod_ := CVERecord.setBlobHash (HashString (blobHash f)) mod_ in
         let mod_ := CVERecord.setCVEState (cveschema.State cve) mod_ in
         let mod_ := CVERecord.setCommitHash (HashString commitHash) mod_ in
         mod_ <- fromRes (triageTransition old needs mod_);;
         _ <- onFst (SetCVERecord mod_);;
         ret false
     end).

(** [idToRecord] as [updateBatch] fills it from the records read. *)
Definition indexByID (crs : list CVERecord.t) : gmap string CVERecord.t :=
  fold_left (fun m cr => <[CVERecord.ID cr := cr]> m) crs ∅.

(** [old != nil && old.BlobHash == f.blobHash.String()]. *)
Definition unchanged (old : option CVERecord.t) (f : repoFile) : bool :=
  match old with
  | Some o => String.eqb (CVERecord.BlobHash o) (HashString (blobHash f))
  | None => false
  end.

(** The loop over the batch inside the transaction of [updateBatch]. *)
Fixpoint batchLoop {T : Type} (repo : Repository) (commitHash : Hash)
  (needsIssue : triageFunc T) (idToRecord : gmap string CVERecord.t)
  (batch : list repoFile) (numAdds numMods : Z) : M (Transaction * T) (Z * Z) :=
  match batch with
  | [] => ret (numAdds, numMods)
  | f :: batch' =>
      let id := idFromFilename (filename f) in
      let old := idToRecord !! id in
      if unchanged old f
      then batchLoop repo commitHash needsIssue idToRecord batch' numAdds numMods
      else
        added <- handleCVE repo f old commitHash needsIssue;;
        if added : bool
        then batchLoop repo commitHash needsIssue idToRecord batch' (numAdds + 1) numMods
        else batchLoop repo commitHash needsIssue idToRecord batch' numAdds (numMods + 1)
  end.

(** The function [updateBatch] passes to [RunTransaction]. *)
Definition batchTransaction {T : Type} (repo : Repository) (commitHash : Hash)
  (needsIssue : triageFunc T) (startID endID : string) (batch : list repoFile)
  : M (Transaction * T) (Z * Z) :=
  crs <- onFst (GetCVERecords startID endID);;
  batchLoop repo commitHash needsIssue (indexByID crs) batch 0 0.

Definition updateBatch {T : Type} (repo : Repository) (batch : list repoFile)
  (commitHash : Hash) (needsIssue : triageFunc T) : M (MemStore * T) (Z * Z) :=
  match batch, last batch with
  | first :: _, Some final =>
      let startID := idFromFilename (filename first) in
      let endID := idFromFilename (filename final) in
      wrapM ("updateBatch(" +:+ startID +:+ "-" +:+ endID +:+ ")")
        (RunTransaction (batchTransaction repo commitHash needsIssue startID endID batch))
  | _, _ => fromRes (Panic "runtime error: index out of range [0] with length 0")
  end.

(** Firestore supports a maximum of 500 writes per transaction. *)
Definition batchSize : nat := 500.

(** The slices [dirFiles[i:j]] of the batch loop of [updateDirectory], for
    [i] = 0, [batchSize], 2 * [batchSize], ... below [len(dirFiles)] and
    [j] the smaller of [i + batchSize] and [len(dirFiles)].  Each slice
    holds a file at least, so the length of the list bounds their number. *)
Fixpoint windowsFrom (fuel : nat) (rest : list repoFile) : list (list repoFile) :=
  match fuel, rest with
  | S fuel', _ :: _ => take batchSize rest :: windowsFrom fuel' (drop batchSize rest)
  | _, _ => []
  end.

Definition windows (dirFiles : list repoFile) : list (list repoFile) :=
  windowsFrom (length dirFiles) dirFiles.

(** The batch loop of [updateDirectory]. *)
Fixpoint directoryLoop {T : Type} (repo : Repository) (commitHash : Hash)
  (needsIssue : triageFunc T) (batches : list (list repoFile))
  (numProc numAdds numMods : Z) : M (MemStore * T) (Z * Z * Z) :=
  match batches with
  | [] => ret (numProc, numAdds, numMods)
  | batch :: batches' =>
      n <- updateBatch repo batch commitHash needsIssue;;
      directoryLoop repo commitHash needsIssue batches'
        (numProc + Z.of_nat (length batch)) (numAdds + fst n) (numMods + snd n)
  end.

(** The marker of a directory whose processing has begun and not ended. *)
Definition inProgress : string := "in progress".

Definition updateDirectory {T : Type} (repo : Repository) (dirFiles : list repoFile)
  (commitHash : Hash) (needsIssue : triageFunc T) : M (MemStore * T) (Z * Z * Z) :=
  match dirFiles with
  | [] => fromRes (Panic "runtime error: index out of range [0] with length 0")
  | d0 :: _ =>
      let dirPath := dirPath d0 in
      let dirHash := HashString (treeHash d0) in
      dbHash <- onFst (GetDirectoryHash dirPath);;
      if String.eqb dirHash dbHash then ret (0, 0, 0)
      else
        _ <- onFst (SetDirectoryHash dirPath inProgress);;
        counts <- directoryLoop repo commitHash needsIssue (windows dirFiles) 0 0 0;;
        _ <- onFst (SetDirectoryHash dirPath dirHash);;
        ret counts
  end.

(** What [doUpdate] hands back: its two results, or a panic. *)
Inductive UpdateResult : Type :=
| Returned (ur : option CommitUpdateRecord.t) (err : option string)
| Panicked (msg : string).

(** The loop of [doUpdate] over the directories and the lines after it.
    [endedAt] is what [time.Now()] reads after the loop. *)
Fixpoint directoriesLoop {T : Type} (repo : Repository) (commitHash : Hash)
  (needsIssue : triageFunc T) (endedAt : Z) (filesByDir : list (list repoFile))
  (ur : CommitUpdateRecord.t) (s : MemStore * T) : UpdateResult * (MemStore * T) :=
  match filesByDir with
  | [] =>
      let ur := CommitUpdateRecord.setEndedAt endedAt ur in
      match onFst (SetCommitUpdateRecord ur) s with
      | (Ok _, s') => (Returned (Some ur) None, s')
      | (Err e, s') => (Returned (Some ur) (Some e), s')
      | (Panic m, s') => (Panicked m, s')
      end
  | dirFiles :: filesByDir' =>
      let addAndGoOn (counts : Z * Z * Z) (ur : CommitUpdateRecord.t) (s : MemStore * T) :=
        let '(numProc, numAdds, numMods) := counts in
        let ur := CommitUpdateRecord.addCounts numProc numAdds numMods ur in
        match onFst (SetCommitUpdateRecord ur) s with
        | (Ok _, s') => directoriesLoop repo commitHash needsIssue endedAt filesByDir' ur s'
        | (Err e, s') => (Returned (Some ur) (Some e), s')
        | (Panic m, s') => (Panicked m, s')
        end in
      match updateDirectory repo dirFiles commitHash needsIssue s with
      | (Ok counts, s1) => addAndGoOn counts ur s1
      | (Err e, s1) =>
          let ur := CommitUpdateRecord.setError e ur in
          match onFst (SetCommitUpdateRecord ur) s1 with
          | (Ok _, s2) => addAndGoOn (0, 0, 0) ur s2
          | (Err e2, s2) =>
              (Returned (Some ur)
                 (Some ("update failed with " +:+ e +:+
                        ", could not set update record: " +:+ e2)), s2)
          | (Panic m, s2) => (Panicked m, s2)
          end
      | (Panic m, s1) => (Panicked m, s1)
      end
  end.

Definition wrapErr (prefix : string) (r : UpdateResult) : UpdateResult :=
  match r with
  | Returned ur (Some e) => Returned ur (Some (prefix +:+ ": " +:+ e))
  | other => other
  end.

(** [doUpdate] compares the repo at the given commit with the state of the
    DB and updates the DB to match.  [startedAt] and [endedAt] are the two
    readings of [time.Now()]. *)
Definition doUpdate {T : Type} (repo : Repository) (commitHash : Hash)
  (needsIssue : triageFunc T) (startedAt endedAt : Z) (s : MemStore * T)
  : UpdateResult * (MemStore * T) :=
  let wrapped (out : UpdateResult * (MemStore * T)) :=
    (wrapErr ("doUpdate(" +:+ HashString commitHash +:+ ")") (fst out), snd out) in
  wrapped
    match CommitObject repo commitHash with
    | Err e => (Returned None (Some e), s)
    | Panic m => (Panicked m, s)
    | Ok commit =>
        match repoCVEFiles commit with
        | Err e => (Returned None (Some e), s)
        | Panic m => (Panicked m, s)
        | Ok files =>
            match groupFilesByDirectory files with
            | Err e => (Returned None (Some e), s)
            | Panic m => (Panicked m, s)
            | Ok filesByDir =>
                let ur :=
                  {| CommitUpdateRecord.StartedAt := startedAt;
                     CommitUpdateRecord.EndedAt := 0;
                     CommitUpdateRecord.CommitHash := HashString commitHash;
                     CommitUpdateRecord.CommitTime := CommitterWhen commit;
                     CommitUpdateRecord.NumTotal := Z.of_nat (length files);
                     CommitUpdateRecord.NumProcessed := 0;
                     CommitUpdateRecord.NumAdded := 0;
                     CommitUpdateRecord.NumModified := 0;
                     CommitUpdateRecord.Error := "" |} in
                match onFst (CreateCommitUpdateRecord ur) s with
                | (Ok _, s1) =>
                    directoriesLoop repo commitHash needsIssue endedAt filesByDir ur s1
                | (Err e, s1) => (Returned (Some ur) (Some e), s1)
                | (Panic m, s1) => (Panicked m, s1)
                end
            end
        end
    end.



(** The table of the specification for a changed file with a stored record:
    from the old triage state and the needs-action signal, the new state
    and the reason where the table sets one; [None] is the fatal error of
    the last row. *)
Definition transitionTable (old : TriageState) (needs : bool)
  : option (TriageState * option string) :=
  if String.eqb old "NoActionNeeded" then
    Some (if needs then "NeedsIssue" else "NoActionNeeded", None)
  else if String.eqb old "NeedsIssue" then
    Some (if needs then "NeedsIssue" else "NoActionNeeded", None)
  else if String.eqb old "IssueCreated" then
    Some ("UpdatedSinceIssueCreation",
          Some ("CVE changed; needs issue = " +:+ fmtBool needs))
  else if String.eqb old "UpdatedSinceIssueCreation" then
    Some ("UpdatedSinceIssueCreation",
          Some ("CVE changed; needs issue = " +:+ fmtBool needs))
  else None.

(** The needs-action signal of [handleCVE] for a decoded document: the
    triage function is asked about public documents only. *)
Definition needsAction {T : Type} (needsIssue : triageFunc T) (cve : cveschema.CVE)
  (ts : T) : Res bool * T :=
  if String.eqb (cveschema.State cve) cveschema.StatePublic
  then needsIssue cve ts
  else (Ok false, ts).

(** The order of the files by year and number, as integers. *)
Definition keyLt (a b : repoFile) : Prop :=
  year a < year b ∨ (year a = year b ∧ number a < number b).

Definition keyLe (a b : repoFile) : Prop :=
  year a < year b ∨ (year a = year b ∧ number a <= number b).

(** The directory of a group of files: [dir[0].dirPath]. *)
Definition groupDir (dir : list repoFile) : string :=
  match dir with d0 :: _ => dirPath d0 | [] => "" end.

(** [returnsTo d ds]: in the sequence [ds] of directory paths, a path other
    than [d] is followed, at once or later, by [d]. *)
Fixpoint returnsTo (d : string) (ds : list string) : bool :=
  match ds with
  | [] => false
  | y :: ds' =>
      (negb (String.eqb y d) && existsb (String.eqb d) ds') || returnsTo d ds'
  end.

(** [nonContiguous ds]: some directory path of the sequence appears in two
    runs that are not adjacent: it is left for another path and met again
    later. *)
Fixpoint nonContiguous (ds : list string) : bool :=
  match ds with
  | [] => false
  | x :: ds' => returnsTo x ds' || nonContiguous ds'
  end.

(** The groups [groupFilesByDirectory] makes of [files] when it has
    [curDir] at hand. *)
Fixpoint runsFrom (curDir : list repoFile) (files : list repoFile)
  : list (list repoFile) :=
  match files with
  | [] => match curDir with [] => [] | _ => [curDir] end
  | f :: files' =>
      match curDir with
      | c :: _ =>
          if negb (String.eqb (dirPath f) (dirPath c))
          then curDir :: runsFrom [f] files'
          else runsFrom (curDir ++ [f]) files'
      | [] => runsFrom [f] files'
      end
  end.

(** The directory paths of the runs of a sequence that goes on after a
    run of [d]. *)
Fixpoint compressFrom (d : string) (ds : list string) : list string :=
  match ds with
  | [] => [d]
  | x :: ds' =>
      if negb (String.eqb x d) then d :: compressFrom x ds' else compressFrom d ds'
  end.

(** The events of a transaction that committed. *)
Definition isCommitEv (e : Event) : Prop :=
  match e with CommitEv _ => True | _ => False end.

(** The state after [st.SetCommitUpdateRecord(ctx, ur)]. *)
Definition recorded {T : Type} (ur : CommitUpdateRecord.t) (s : MemStore * T)
  : MemStore * T :=
  ((SetCommitUpdateRecord ur s.1).2, s.2).

(** The run record [doUpdate] creates before the loop. *)
Definition initialRecord (commitHash : Hash) (commit : Commit) (files : list repoFile)
  (startedAt : Z) : CommitUpdateRecord.t :=
  {| CommitUpdateRecord.StartedAt := startedAt;
     CommitUpdateRecord.EndedAt := 0;
     CommitUpdateRecord.CommitHash := HashString commitHash;
     CommitUpdateRecord.CommitTime := CommitterWhen commit;
     CommitUpdateRecord.NumTotal := Z.of_nat (length files);
     CommitUpdateRecord.NumProcessed := 0;
     CommitUpdateRecord.NumAdded := 0;
     CommitUpdateRecord.NumModified := 0;
     CommitUpdateRecord.Error := "" |}.

(** The state after [st.CreateCommitUpdateRecord(ctx, ur)]. *)
Definition created {T : Type} (ur : CommitUpdateRecord.t) (s : MemStore * T)
  : MemStore * T :=
  ((CreateCommitUpdateRecord ur s.1).2, s.2).

(** [marked st g]: the marker the store holds for the directory of the
    group [g] is the hash of the directory. *)
Definition marked (st : MemStore) (g : list repoFile) : Prop :=
  match g with
  | d0 :: _ => default "" (dirHashes st !! dirPath d0) = HashString (treeHash d0)
  | [] => False
  end.

(** What a successful walk of the entries of a tree returns: the files it
    was given are kept, and every leaf of the entries was parsed. *)
Definition walkSpec (leaves : list string) (files out : list repoFile) : Prop :=
  (∀ f, f ∈ files → f ∈ out) ∧
  (∀ name, name ∈ leaves → ∃ f, f ∈ out ∧ parsedAs name f).

(** Each group is a run: it is not empty and its files have the directory
    path of its first file. *)
Definition isRun (g : list repoFile) : Prop :=
  g ≠ [] ∧ ∀ f, f ∈ g → dirPath f = groupDir g.

(** [isCreate w]: the write [w] is a [CreateCVERecord]. *)
Definition isCreate (w : Write) : bool :=
  match w with CreateCVE _ => true | SetCVE _ => false end.

(** [keyedByID m]: every record of the map is stored under its ID. *)
Definition keyedByID (m : gmap string CVERecord.t) : bool :=
  forallb (fun kv => String.eqb (CVERecord.ID kv.2) kv.1) (map_to_list m).

(** [allUnchanged m startID endID batch]: every file of the batch has its ID
    inside the range and a record in [m] with the hash of the file. *)
Definition allUnchanged (m : gmap string CVERecord.t) (startID endID : string)
  (batch : list repoFile) : bool :=
  forallb (fun f => inRange startID endID (idFromFilename (filename f))
                    && unchanged (m !! idFromFilename (filename f)) f) batch.

(** The total number of files of a list of groups. *)
Definition totalFiles (groups : list (list repoFile)) : Z :=
  Z.of_nat (length (concat groups)).

(** The numbers of creates and of sets among the writes of a transaction. *)
Definition creates (ws : list Write) : Z :=
  Z.of_nat (length (List.filter isCreate ws)).

Definition sets (ws : list Write) : Z :=
  Z.of_nat (length (List.filter (fun w => negb (isCreate w)) ws)).

(** [calm repo needsIssue]: the repository and the triage function fail by
    returning errors, they do not panic. *)
Definition calm {T : Type} (repo : Repository) (needsIssue : triageFunc T) : Prop :=
  (∀ h p, BlobObject repo h ≠ Panic p ∧ BlobObject repo h ≠ Ok (Panic p)) ∧
  (∀ cve ts p, (needsIssue cve ts).1 ≠ Panic p).

(** No directory entry of the tree, or of the directories below it,
    resolves with a panic.  [walkFiles] asks for the tree of an entry on
    directories only. *)
Fixpoint lookupsCalm (tree : Tree) : bool :=
  match tree with
  | mkTree _ entries =>
      (fix calmEntries (es : list TreeEntry) : bool :=
         match es with
         | [] => true
         | mkTreeEntry _ mode _ obj :: es' =>
             (if isDir mode then
                match obj with
                | Ok dir => lookupsCalm dir
                | Err _ => true
                | Panic _ => false
                end
              else true)
             && calmEntries es'
         end) entries
  end.

Definition calmEntries : list TreeEntry -> bool :=
  fix calmEntries (es : list TreeEntry) : bool :=
    match es with
    | [] => true
    | mkTreeEntry _ mode _ obj :: es' =>
        (if isDir mode then
           match obj with
           | Ok dir => lookupsCalm dir
           | Err _ => true
           | Panic _ => false
           end
         else true)
        && calmEntries es'
    end.

(** ** Sample inputs *)

Module Samples.

(** A hash made of one byte, twenty times. *)
Definition hashOf (b : Byte.byte) : Hash := repeat b 20.

Definition hashEqb (a b : Hash) : bool := String.eqb (HashString a) (HashString b).

Definition fileEntry (name : string) (blob : Hash) : TreeEntry :=
  mkTreeEntry name Regular blob (Err "object not found").

Definition dirEntry (name : string) (hash : Hash) (entries : list TreeEntry) : TreeEntry :=
  mkTreeEntry name Dir hash (Ok (mkTree hash entries)).

Definition publicCVE (id : string) : cveschema.CVE :=
  cveschema.mkCVE id cveschema.StatePublic.

(** A triage function that answers [answer] and writes down the ID of
    the CVE it was asked about. *)
Definition recordingTriage (answer : bool) : triageFunc (list string) :=
  fun cve asked => (Ok answer, asked ++ [cveschema.ID cve]).

Definition commitAt (hash : Hash) (root : Tree) : Commit :=
  {| commitHash := hash; TreeHash := hashOf Byte.x01;
     CommitterWhen := 1700000000; rootTree := Ok root |}.

(** A repository with one commit, of hash [hash] and root tree [root],
    and the blobs listed. *)
Definition repoAt (hash : Hash) (root : Tree) (blobs : list (Hash * cveschema.CVE))
  : Repository :=
  {| CommitObject := fun c =>
       if hashEqb c hash then Ok (commitAt hash root)
       else Err "object not found";
     BlobObject := fun b =>
       match find (fun kv => hashEqb b (fst kv)) blobs with
       | Some kv => Ok (Ok (snd kv))
       | None => Err "object not found"
       end |}.

Definition commitOf (root : Tree) : Commit := commitAt (hashOf Byte.xc0) root.

Definition repoOf (root : Tree) (blobs : list (Hash * cveschema.CVE)) : Repository :=
  repoAt (hashOf Byte.xc0) root blobs.

(** Three directories of one file each; the blob of the second file is
    missing from the repository. *)
Definition threeDirs : Tree :=
  mkTree (hashOf Byte.x01)
    [ dirEntry "2019" (hashOf Byte.x19) [fileEntry "CVE-2019-0001.json" (hashOf Byte.xa1)];
      dirEntry "2020" (hashOf Byte.x20) [fileEntry "CVE-2020-0001.json" (hashOf Byte.xa2)];
      dirEntry "2021" (hashOf Byte.x21) [fileEntry "CVE-2021-0001.json" (hashOf Byte.xa3)] ].


(** The same tree with all three blobs present. *)
Definition threeDirsFullRepo : Repository :=
  repoOf threeDirs
    [ (hashOf Byte.xa1, publicCVE "CVE-2019-0001");
      (hashOf Byte.xa2, publicCVE "CVE-2020-0001");
      (hashOf Byte.xa3, publicCVE "CVE-2021-0001") ].

(** One directory whose two files have sequence numbers of four and of
    five digits. *)
Definition mixedLengths : Tree :=
  mkTree (hashOf Byte.x01)
    [ dirEntry "2014" (hashOf Byte.x14)
        [ fileEntry "CVE-2014-10000.json" (hashOf Byte.xb1);
          fileEntry "CVE-2014-9999.json" (hashOf Byte.xb2) ] ].






(** The files of [threeDirs] and of [mixedLengths] as the walk finds
    them. *)
Definition file2019 : repoFile :=
  {| dirPath := "2019"; filename := "CVE-2019-0001.json";
     treeHash := hashOf Byte.x19; blobHash := hashOf Byte.xa1;
     year := 2019; number := 1 |}.

Definition file2020 : repoFile :=
  {| dirPath := "2020"; filename := "CVE-2020-0001.json";
     treeHash := hashOf Byte.x20; blobHash := hashOf Byte.xa2;
     year := 2020; number := 1 |}.

Definition file2021 : repoFile :=
  {| dirPath := "2021"; filename := "CVE-2021-0001.json";
     treeHash := hashOf Byte.x21; blobHash := hashOf Byte.xa3;
     year := 2021; number := 1 |}.

Definition file9999 : repoFile :=
  {| dirPath := "2014"; filename := "CVE-2014-9999.json";
     treeHash := hashOf Byte.x14; blobHash := hashOf Byte.xb2;
     year := 2014; number := 9999 |}.

Definition file10000 : repoFile :=
  {| dirPath := "2014"; filename := "CVE-2014-10000.json";
     treeHash := hashOf Byte.x14; blobHash := hashOf Byte.xb1;
     year := 2014; number := 10000 |}.

(** A file of [threeDirs] put in another directory: with it between
    them, the two files of a directory are not contiguous. *)
Definition strayFile : repoFile :=
  {| dirPath := "2019"; filename := "CVE-2021-0002.json";
     treeHash := hashOf Byte.x19; blobHash := hashOf Byte.xa4;
     year := 2021; number := 2 |}.

(** A tree in which the directory "2019" holds, next to its own file, a
    file of the year 2021: sorted by year and number, the files of "2019"
    are apart. *)
Definition strayTree : Tree :=
  mkTree (hashOf Byte.x01)
    [ dirEntry "2019" (hashOf Byte.x19)
        [ fileEntry "CVE-2019-0001.json" (hashOf Byte.xa1);
          fileEntry "CVE-2021-0002.json" (hashOf Byte.xa4) ];
      dirEntry "2020" (hashOf Byte.x20)
        [ fileEntry "CVE-2020-0001.json" (hashOf Byte.xa2) ] ].

Definition strayRepo : Repository :=
  repoOf strayTree
    [ (hashOf Byte.xa1, publicCVE "CVE-2019-0001");
      (hashOf Byte.xa2, publicCVE "CVE-2020-0001");
      (hashOf Byte.xa4, publicCVE "CVE-2021-0002") ].

(** A stored record of the second file of [threeDirs], for which an issue
    was created. *)
Definition issueCreatedRecord : CVERecord.t :=
  {| CVERecord.ID := "CVE-2020-0001";
     CVERecord.Path := "2020/CVE-2020-0001.json";
     CVERecord.BlobHash := "a0a0a0a0a0a0a0a0a0a0a0a0a0a0a0a0a0a0a0a0";
     CVERecord.CommitHash := "c9c9c9c9c9c9c9c9c9c9c9c9c9c9c9c9c9c9c9c9";
     CVERecord.CVEState := "public";
     CVERecord.TriageState := TriageStateIssueCreated;
     CVERecord.TriageStateReason := "" |}.

(** A repository whose blob decodes to a document that is not public. *)
Definition reservedCVE : cveschema.CVE := cveschema.mkCVE "CVE-2020-0001" "reserved".

Definition reservedRepo : Repository :=
  repoOf threeDirs [ (hashOf Byte.xa2, reservedCVE) ].





(** The run on [threeDirsFullRepo], in which no directory fails. *)
Definition fullRun : UpdateResult * (MemStore * list string) :=
  doUpdate threeDirsFullRepo (hashOf Byte.xc0) (recordingTriage true) 10 20
    (emptyStore, []).

Definition fullRunRecord : CommitUpdateRecord.t :=
  {| CommitUpdateRecord.StartedAt := 10;
     CommitUpdateRecord.EndedAt := 20;
     CommitUpdateRecord.CommitHash := "c0c0c0c0c0c0c0c0c0c0c0c0c0c0c0c0c0c0c0c0";
     CommitUpdateRecord.CommitTime := 1700000000;
     CommitUpdateRecord.NumTotal := 3;
     CommitUpdateRecord.NumProcessed := 3;
     CommitUpdateRecord.NumAdded := 3;
     CommitUpdateRecord.NumModified := 0;
     CommitUpdateRecord.Error := "" |}.

(** A tree with one file whose name has no sequence part. *)
Definition shortName : Tree :=
  mkTree (hashOf Byte.x01) [fileEntry "CVE-2020.json" (hashOf Byte.xb1)].

(** A tree with one file whose sequence part carries a minus sign. *)
Definition signedName : Tree :=
  mkTree (hashOf Byte.x01) [fileEntry "CVE-2020--5.json" (hashOf Byte.xb1)].

(** The first directory of [threeDirs] on an empty store. *)
Definition firstDirectory : Res (Z * Z * Z) * (MemStore * list string) :=
  updateDirectory threeDirsFullRepo [file2019] (hashOf Byte.xc0) (recordingTriage true)
    (emptyStore, []).

(** The run on [strayRepo], whose directories are not contiguous. *)
Definition strayError : string :=
  "doUpdate(c0c0c0c0c0c0c0c0c0c0c0c0c0c0c0c0c0c0c0c0): " +:+
  "directory 2019 is not contiguous in the sorted list of files".

End Samples.

(** * Properties *)

Import Samples.

(** ** Strings *)

Lemma append_cons (x : ascii) (a b : string) : String x a +:+ b = String x (a +:+ b).
Proof. reflexivity. Qed.

Lemma len_app (a b : string) : len (a +:+ b) = (len a + len b)%nat.
Proof.
  unfold len. induction a as [|c a IH]; [done|].
  rewrite append_cons. simpl. by rewrite IH.
Qed.

Lemma append_assoc (a b c : string) : (a +:+ b) +:+ c = a +:+ b +:+ c.
Proof. induction a as [|x a IH]; [done|]. rewrite !append_cons. by rewrite IH. Qed.

Lemma append_nil_r (a : string) : a +:+ "" = a.
Proof. induction a as [|x a IH]; [done|]. rewrite append_cons. by rewrite IH. Qed.

Lemma string_of_list_app (l1 l2 : list ascii) :
  String.string_of_list_ascii (l1 ++ l2) =
  String.string_of_list_ascii l1 +:+ String.string_of_list_ascii l2.
Proof.
  induction l1 as [|c l1 IH]; [done|].
  simpl. rewrite append_cons. by rewrite IH.
Qed.

(** [extLoop] returns a suffix of the string it scans, followed by what
    it was given as [after]. *)
Lemma extLoop_suffix (before : list ascii) (after : string) :
  extLoop before after = "" ∨
  ∃ pre, String.string_of_list_ascii (rev before) +:+ after = pre +:+ extLoop before after.
Proof.
  revert after. induction before as [|c before IH]; intros after; simpl; [by left|].
  destruct (Ascii.eqb c "/"); [by left|].
  destruct (Ascii.eqb c ".").
  - right. exists (String.string_of_list_ascii (rev before)).
    rewrite string_of_list_app. by rewrite append_assoc.
  - destruct (IH (String c after)) as [->|[pre Hpre]]; [by left|].
    right. exists pre. rewrite <- Hpre.
    rewrite string_of_list_app. by rewrite append_assoc.
Qed.

(** A name with the extension ".json" ends with it. *)
Lemma Ext_json (name : string) :
  Ext name = ".json" → ∃ pre, name = pre +:+ ".json".
Proof.
  unfold Ext. intros HE.
  destruct (extLoop_suffix (rev (String.list_ascii_of_string name)) "") as [H0|[pre H]].
  - rewrite HE in H0. discriminate.
  - exists pre. rewrite HE in H. rewrite rev_involutive in H.
    rewrite String.string_of_list_ascii_of_string in H.
    by rewrite append_nil_r in H.
Qed.

(** ** The walk *)

Lemma walkFiles_eq (h : Hash) (es : list TreeEntry) (dirpath : string) (files : list repoFile) :
  walkFiles (mkTree h es) dirpath files = walkEntries h dirpath es files.
Proof. reflexivity. Qed.

Lemma leafNames_eq (h : Hash) (es : list TreeEntry) :
  leafNames (mkTree h es) = leafEntries es.
Proof. reflexivity. Qed.

(** Induction on a tree, with the property at hand for the trees its
    directory entries resolve to. *)
Lemma Tree_nested_ind (P : Tree → Prop) :
  (∀ h es,
     Forall (fun e => match e with
                      | mkTreeEntry _ _ _ (Ok t) => P t
                      | _ => True
                      end) es →
     P (mkTree h es)) →
  ∀ t, P t.
Proof.
  intros H. fix IH 1. intros [h es]. apply H.
  revert es. fix IHes 1. intros [|e es]; constructor.
  - destruct e as [n m eh [t| |]]; [apply IH | exact I | exact I].
  - apply IHes.
Qed.

(** A name that passes the filter has nine bytes at least: the prefix and
    the extension do not overlap. *)
Lemma isCVEFilename_len (name : string) :
  isCVEFilename name = true → (9 <= len name)%nat.
Proof.
  unfold isCVEFilename, HasPrefix. intros [Hp He]%andb_true_iff.
  apply String.eqb_eq, Ext_json in He as [pre ->].
  apply String.prefix_correct in Hp.
  rewrite len_app.
  destruct pre as [|c1 [|c2 [|c3 [|c4 pre]]]]; try discriminate Hp.
  unfold len; simpl; lia.
Qed.

(** So the first slice of [walkFiles], [e.Name[4:8]], is within bounds. *)
Lemma slice_year_ok (name : string) :
  isCVEFilename name = true → slice name 4 8 = Ok (String.substring 4 4 name).
Proof.
  intros H%isCVEFilename_len. unfold slice.
  destruct (Nat.leb_spec 8 (len name)) as [_|?]; [done | lia].
Qed.

Lemma bindRes_Ok {A B : Type} (r : Res A) (k : A → Res B) (b : B) :
  bindRes r k = Ok b → ∃ a, r = Ok a ∧ k a = Ok b.
Proof. destruct r; simpl; [eauto | done | done]. Qed.

Lemma walkEntries_spec (h : Hash) (es : list TreeEntry) :
  Forall (fun e => match e with
                   | mkTreeEntry _ _ _ (Ok t) =>
                       ∀ dirpath files out,
                         walkFiles t dirpath files = Ok out →
                         walkSpec (leafNames t) files out
                   | _ => True
                   end) es →
  ∀ dirpath files out,
    walkEntries h dirpath es files = Ok out → walkSpec (leafEntries es) files out.
Proof.
  induction 1 as [|[name mode eh obj] es He Hes IH]; intros dirpath files out Hw.
  - simpl in Hw. injection Hw as <-. split; [done|]. intros name Hn. inversion Hn.
  - simpl in Hw. simpl leafEntries. destruct (isDir mode).
    + apply bindRes_Ok in Hw as (dir & -> & Hw).
      apply bindRes_Ok in Hw as (files1 & Hdir & Hw).
      apply He in Hdir as [Hkeep1 Hleaf1]. apply IH in Hw as [Hkeep2 Hleaf2].
      split; [auto|]. intros n [Hn|Hn]%elem_of_app; [|auto].
      destruct (Hleaf1 n Hn) as (f & Hf & Hp). eauto.
    + destruct (isCVEFilename name) eqn:Hcve.
      * apply bindRes_Ok in Hw as (y & Hy & Hw).
        apply bindRes_Ok in Hw as (yr & Hyr & Hw).
        apply bindRes_Ok in Hw as (n & Hn & Hw).
        apply bindRes_Ok in Hw as (nr & Hnr & Hw).
        apply IH in Hw as [Hkeep Hleaf].
        split.
        { intros f Hf. apply Hkeep, elem_of_app. by left. }
        intros n' [Hn'|Hn']%elem_of_app; [|auto].
        apply list_elem_of_singleton in Hn' as ->.
        eexists. split.
        { apply Hkeep, elem_of_app. right. apply list_elem_of_singleton. reflexivity. }
        repeat split; simpl; eauto.
      * apply IH in Hw as [Hkeep Hleaf]. split; [done|].
        intros n' Hn'. simpl in Hn'. auto.
Qed.

Lemma walkFiles_spec (t : Tree) :
  ∀ dirpath files out,
    walkFiles t dirpath files = Ok out → walkSpec (leafNames t) files out.
Proof.
  induction t as [h es IH] using Tree_nested_ind.
  intros dirpath files out. rewrite walkFiles_eq, leafNames_eq.
  by apply walkEntries_spec.
Qed.

(** C9, as amended.  For every entry of the tree that the walk takes for a
    CVE file: if the walk returns a list of files, the list holds a file of
    that name whose year is what [strconv.Atoi] reads in [name[4:8]] and
    whose number what it reads in [name[9:len(name)-5]]; and if
    [strconv.Atoi] rejects one of the two parts, the walk returns no list
    at all, so the file is never skipped.  [strconv.Atoi] reads an optional
    sign before the digits: a negative part is accepted. *)
Theorem walkFiles_parses_every_leaf (tree : Tree) (dirpath : string)
  (files : list repoFile) (name : string) :
  name ∈ leafNames tree →
  (∀ out, walkFiles tree dirpath files = Ok out → ∃ f, f ∈ out ∧ parsedAs name f) ∧
  ((∀ y, bindRes (slice name 4 8) Atoi ≠ Ok y) ∨
   (∀ n, bindRes (slice name 9 (len name - 5)%nat) Atoi ≠ Ok n) →
   ∀ out, walkFiles tree dirpath files ≠ Ok out).
Proof.
  intros Hname.
  assert (Hall : ∀ out, walkFiles tree dirpath files = Ok out →
                        ∃ f, f ∈ out ∧ parsedAs name f).
  { intros out Hw. apply walkFiles_spec in Hw as [_ Hleaf]. auto. }
  split; [exact Hall|].
  intros Hbad out Hw.
  destruct (Hall out Hw) as (f & _ & _ & (y & Hy & Hyr) & (n & Hn & Hnr)).
  destruct Hbad as [Hbad|Hbad].
  - apply (Hbad (year f)). by rewrite Hy.
  - apply (Hbad (number f)). by rewrite Hn.
Qed.

Lemma walkFiles_parses_every_leaf_witness :
  "CVE-2020-0001.json" ∈ leafNames threeDirs ∧
  (∀ out, walkFiles threeDirs "" [] = Ok out →
          ∃ f, f ∈ out ∧ parsedAs "CVE-2020-0001.json" f) ∧
  ((∀ y, bindRes (slice "CVE-2020-0001.json" 4 8) Atoi ≠ Ok y) ∨
   (∀ n, bindRes (slice "CVE-2020-0001.json" 9 13) Atoi ≠ Ok n) →
   ∀ out, walkFiles threeDirs "" [] ≠ Ok out).
Proof.
  assert (H : "CVE-2020-0001.json" ∈ leafNames threeDirs).
  { vm_compute. apply list_elem_of_further, list_elem_of_here. }
  split; [exact H|].
  exact (walkFiles_parses_every_leaf threeDirs "" [] "CVE-2020-0001.json" H).
Defined.

(** C9, as stated, fails: the sequence part of "CVE-2020--5.json" is "-5",
    which is not a non-negative integer, and the walk returns the file with
    the number -5. *)
Lemma walkFiles_accepts_negative_number :
  isCVEFilename "CVE-2020--5.json" = true ∧
  walkFiles signedName "" [] =
  Ok [ {| dirPath := ""; filename := "CVE-2020--5.json";
          treeHash := hashOf Byte.x01; blobHash := hashOf Byte.xb1;
          year := 2020; number := -5 |} ].
Proof. split; reflexivity. Qed.

(** C10 at its failing input: "CVE-2020.json" passes the filter, its year
    parses, and the slice [e.Name[9:8]] panics. *)
Theorem walkFiles_panics_on_short_name :
  isCVEFilename "CVE-2020.json" = true ∧
  bindRes (slice "CVE-2020.json" 4 8) Atoi = Ok 2020 ∧
  walkFiles shortName "" [] = Panic "runtime error: slice bounds out of range".
Proof. repeat split; reflexivity. Qed.

(** ** Triage of one file *)

(** [handleCVE], step by step: the blob is read and decoded, the signal is
    computed, and the rest depends on the stored record. *)
Lemma handleCVE_decoded {T : Type} (repo : Repository) (f : repoFile)
  (old : option CVERecord.t) (commitHash : Hash) (needsIssue : triageFunc T)
  (tx : Transaction) (ts : T) (cve : cveschema.CVE) (needs : bool) (ts' : T) :
  blobReader repo (blobHash f) = Ok (Ok cve) →
  needsAction needsIssue cve ts = (Ok needs, ts') →
  handleCVE repo f old commitHash needsIssue (tx, ts) =
  match old with
  | None =>
      (Ok true,
       ({| snapshot := snapshot tx;
           writes := writes tx ++
             [CreateCVE
                {| CVERecord.ID := cveschema.ID cve;
                   CVERecord.Path := pathJoin (dirPath f) (filename f);
                   CVERecord.BlobHash := HashString (blobHash f);
                   CVERecord.CommitHash := HashString commitHash;
                   CVERecord.CVEState := cveschema.State cve;
                   CVERecord.TriageState :=
                     if needs then TriageStateNeedsIssue else TriageStateNoActionNeeded;
                   CVERecord.TriageStateReason := "" |}] |}, ts'))
  | Some o =>
      match triageTransition o needs
              (CVERecord.setCommitHash (HashString commitHash)
                 (CVERecord.setCVEState (cveschema.State cve)
                    (CVERecord.setBlobHash (HashString (blobHash f))
                       (CVERecord.setPath (pathJoin (dirPath f) (filename f)) o)))) with
      | Ok m =>
          (Ok false,
           ({| snapshot := snapshot tx; writes := writes tx ++ [SetCVE m] |}, ts'))
      | Err e => (Err (("handleCVE(" +:+ filename f +:+ ")") +:+ ": " +:+ e), (tx, ts'))
      | Panic p => (Panic p, (tx, ts'))
      end
  end.
Proof.
  intros Hblob Hneeds.
  unfold handleCVE, wrapM, bind, fromRes. rewrite Hblob.
  unfold needsAction in Hneeds.
  assert (Hn : (if String.eqb (cveschema.State cve) cveschema.StatePublic
                then callTriage needsIssue cve else ret false) (tx, ts)
               = (Ok needs, (tx, ts'))).
  { destruct (String.eqb _ _).
    - unfold callTriage. simpl. by rewrite Hneeds.
    - unfold ret. by injection Hneeds as <- <-. }
  rewrite Hn. destruct old as [o|].
  - destruct (triageTransition o needs _); reflexivity.
  - reflexivity.
Qed.

(** The switch of [handleCVE] computes the table of the specification, on
    a copy [m] of the old record that still has its triage state. *)
Lemma triageTransition_table (old : CVERecord.t) (needs : bool) (m : CVERecord.t) :
  CVERecord.TriageState m = CVERecord.TriageState old →
  triageTransition old needs m =
  match transitionTable (CVERecord.TriageState old) needs with
  | Some (state, reason) =>
      Ok (CVERecord.mk (CVERecord.ID m) (CVERecord.Path m) (CVERecord.BlobHash m)
            (CVERecord.CommitHash m) (CVERecord.CVEState m) state
            (default (CVERecord.TriageStateReason m) reason))
  | None => Err ("unknown TriageState: " +:+ quote (CVERecord.TriageState old))
  end.
Proof.
  unfold triageTransition, transitionTable.
  unfold TriageStateNoActionNeeded, TriageStateNeedsIssue, TriageStateIssueCreated,
    TriageStateUpdatedSinceIssueCreation.
  destruct m as [i p b c s t r]; simpl. intros ->.
  destruct (String.eqb_spec (CVERecord.TriageState old) "NoActionNeeded") as [->|_].
  { destruct needs; reflexivity. }
  destruct (String.eqb_spec (CVERecord.TriageState old) "NeedsIssue") as [->|_].
  { destruct needs; reflexivity. }
  destruct (String.eqb_spec (CVERecord.TriageState old) "IssueCreated") as [->|_].
  { reflexivity. }
  destruct (String.eqb_spec (CVERecord.TriageState old) "UpdatedSinceIssueCreation") as [->|_].
  { reflexivity. }
  reflexivity.
Qed.

(** The rows of the table. *)
Lemma transitionTable_rows :
  transitionTable TriageStateNoActionNeeded true = Some (TriageStateNeedsIssue, None) ∧
  transitionTable TriageStateNoActionNeeded false = Some (TriageStateNoActionNeeded, None) ∧
  transitionTable TriageStateNeedsIssue true = Some (TriageStateNeedsIssue, None) ∧
  transitionTable TriageStateNeedsIssue false = Some (TriageStateNoActionNeeded, None) ∧
  transitionTable TriageStateIssueCreated true =
    Some (TriageStateUpdatedSinceIssueCreation, Some "CVE changed; needs issue = true") ∧
  transitionTable TriageStateIssueCreated false =
    Some (TriageStateUpdatedSinceIssueCreation, Some "CVE changed; needs issue = false") ∧
  transitionTable TriageStateUpdatedSinceIssueCreation true =
    Some (TriageStateUpdatedSinceIssueCreation, Some "CVE changed; needs issue = true") ∧
  transitionTable TriageStateUpdatedSinceIssueCreation false =
    Some (TriageStateUpdatedSinceIssueCreation, Some "CVE changed; needs issue = false") ∧
  ∀ (old : TriageState) (needs : bool),
    old ≠ TriageStateNoActionNeeded → old ≠ TriageStateNeedsIssue →
    old ≠ TriageStateIssueCreated → old ≠ TriageStateUpdatedSinceIssueCreation →
    transitionTable old needs = None.
Proof.
  do 8 (split; [reflexivity|]).
  intros old needs H1 H2 H3 H4. unfold transitionTable.
  unfold TriageStateNoActionNeeded, TriageStateNeedsIssue, TriageStateIssueCreated,
    TriageStateUpdatedSinceIssueCreation in *.
  by rewrite (proj2 (String.eqb_neq _ _) H1), (proj2 (String.eqb_neq _ _) H2),
    (proj2 (String.eqb_neq _ _) H3), (proj2 (String.eqb_neq _ _) H4).
Qed.

(** C3.  For a file with a stored record [old] that is read, decoded and
    triaged without error, [handleCVE] follows the table of the
    specification: it buffers one write of the old record with the path,
    the file hash, the publication state and the commit hash of the file,
    the triage state of the table and, for the last two rows, its reason,
    and reports a modification; for a triage state outside the table it
    returns an error and writes nothing.  With a stored record it never
    reports an add, whatever happens. *)
Theorem handleCVE_transition_table {T : Type} (repo : Repository) (f : repoFile)
  (old : CVERecord.t) (commitHash : Hash) (needsIssue : triageFunc T)
  (tx : Transaction) (ts : T) (cve : cveschema.CVE) (needs : bool) (ts1 : T) :
  blobReader repo (blobHash f) = Ok (Ok cve) →
  needsAction needsIssue cve ts = (Ok needs, ts1) →
  handleCVE repo f (Some old) commitHash needsIssue (tx, ts) =
  match transitionTable (CVERecord.TriageState old) needs with
  | Some (state, reason) =>
      (Ok false,
       ({| snapshot := snapshot tx;
           writes := writes tx ++
             [SetCVE
                {| CVERecord.ID := CVERecord.ID old;
                   CVERecord.Path := pathJoin (dirPath f) (filename f);
                   CVERecord.BlobHash := HashString (blobHash f);
                   CVERecord.CommitHash := HashString commitHash;
                   CVERecord.CVEState := cveschema.State cve;
                   CVERecord.TriageState := state;
                   CVERecord.TriageStateReason :=
                     default (CVERecord.TriageStateReason old) reason |}] |}, ts1))
  | None =>
      (Err (("handleCVE(" +:+ filename f +:+ ")") +:+ ": " +:+
            "unknown TriageState: " +:+ quote (CVERecord.TriageState old)),
       (tx, ts1))
  end
  ∧ ∀ (repo2 : Repository) (f2 : repoFile) (c2 : Hash) (needs2 : triageFunc T)
      (s : Transaction * T),
      fst (handleCVE repo2 f2 (Some old) c2 needs2 s) ≠ Ok true.
Proof.
  intros Hblob Hneeds. split.
  - rewrite (handleCVE_decoded repo f (Some old) commitHash needsIssue tx ts cve needs ts1
               Hblob Hneeds).
    rewrite triageTransition_table by reflexivity.
    destruct (transitionTable (CVERecord.TriageState old) needs) as [[state reason]|];
      reflexivity.
  - intros repo2 f2 c2 needs2 [tx2 ts0].
    unfold handleCVE, wrapM, bind, fromRes.
    destruct (blobReader repo2 (blobHash f2)) as [[cve2| |]| |]; simpl; try discriminate.
    destruct (String.eqb _ _).
    + unfold callTriage. simpl. destruct (needs2 cve2 ts0) as [[n| |] ts2]; simpl;
        try discriminate.
      destruct (triageTransition _ _ _); simpl; discriminate.
    + unfold ret. destruct (triageTransition _ _ _); simpl; discriminate.
Qed.

(** C8.  For a document whose publication state is not "public",
    [handleCVE] does not call the triage function (the state of the
    function is left as it was), the needs-action signal is false, and the
    result and the writes buffered are the same under any two triage
    functions. *)
Theorem handleCVE_not_public {T : Type} (repo : Repository) (f : repoFile)
  (old : option CVERecord.t) (commitHash : Hash) (needsIssue : triageFunc T)
  (tx : Transaction) (ts : T) (cve : cveschema.CVE) :
  blobReader repo (blobHash f) = Ok (Ok cve) →
  cveschema.State cve ≠ cveschema.StatePublic →
  needsAction needsIssue cve ts = (Ok false, ts) ∧
  snd (snd (handleCVE repo f old commitHash needsIssue (tx, ts))) = ts ∧
  ∀ (T2 : Type) (needs2 : triageFunc T2) (ts2 : T2),
    fst (handleCVE repo f old commitHash needsIssue (tx, ts)) =
    fst (handleCVE repo f old commitHash needs2 (tx, ts2)) ∧
    fst (snd (handleCVE repo f old commitHash needsIssue (tx, ts))) =
    fst (snd (handleCVE repo f old commitHash needs2 (tx, ts2))).
Proof.
  intros Hblob Hstate.
  assert (Hneeds : ∀ (U : Type) (n : triageFunc U) (u : U),
             needsAction n cve u = (Ok false, u)).
  { intros U n u. unfold needsAction.
    destruct (String.eqb_spec (cveschema.State cve) cveschema.StatePublic); done. }
  split; [apply Hneeds|].
  rewrite (handleCVE_decoded repo f old commitHash needsIssue tx ts cve false ts
             Hblob (Hneeds _ _ _)).
  split.
  - destruct old as [o|]; [|reflexivity].
    destruct (triageTransition o false _); reflexivity.
  - intros T2 needs2 ts2.
    rewrite (handleCVE_decoded repo f old commitHash needs2 tx ts2 cve false ts2
               Hblob (Hneeds _ _ _)).
    destruct old as [o|]; [|split; reflexivity].
    destruct (triageTransition o false _); split; reflexivity.
Qed.

(** ** The order of the files *)

Lemma less_keyLt (a b : repoFile) : less a b = true ↔ keyLt a b.
Proof.
  unfold less, keyLt.
  destruct (Z.eqb_spec (year a) (year b)) as [He|Hne]; simpl.
  - rewrite Z.ltb_lt. lia.
  - rewrite Z.ltb_lt. lia.
Qed.

Lemma less_false_keyLe (a b : repoFile) : less a b = false ↔ keyLe b a.
Proof.
  unfold less, keyLe.
  destruct (Z.eqb_spec (year a) (year b)) as [He|Hne]; simpl.
  - rewrite Z.ltb_ge. lia.
  - rewrite Z.ltb_ge. lia.
Qed.

Lemma keyLe_trans (a b c : repoFile) : keyLe a b → keyLe b c → keyLe a c.
Proof. unfold keyLe. lia. Qed.

Lemma keyLt_keyLe (a b : repoFile) : keyLt a b → keyLe a b.
Proof. unfold keyLt, keyLe. lia. Qed.

Lemma keyLt_not_keyLe (a b : repoFile) : keyLt a b → ¬ keyLe b a.
Proof. unfold keyLt, keyLe. lia. Qed.

Lemma insertSorted_perm {A : Type} (lt : A → A → bool) (x : A) (l : list A) :
  insertSorted lt x l ≡ₚ x :: l.
Proof.
  induction l as [|y l IH]; simpl; [done|].
  destruct (lt x y); [done|]. rewrite IH. apply Permutation_swap.
Qed.

Lemma sortSlice_perm_acc {A : Type} (lt : A → A → bool) (l acc : list A) :
  fold_left (fun sorted x => insertSorted lt x sorted) l acc ≡ₚ l ++ acc.
Proof.
  revert acc. induction l as [|x l IH]; intros acc; simpl; [done|].
  rewrite IH, insertSorted_perm. by rewrite Permutation_middle.
Qed.

Lemma sortSlice_perm {A : Type} (lt : A → A → bool) (l : list A) :
  sortSlice lt l ≡ₚ l.
Proof. unfold sortSlice. rewrite sortSlice_perm_acc. by rewrite app_nil_r. Qed.

Lemma insertSorted_sorted (x : repoFile) (l : list repoFile) :
  StronglySorted keyLe l → StronglySorted keyLe (insertSorted less x l).
Proof.
  induction 1 as [|y l Hl IH Hy]; simpl.
  - repeat constructor.
  - destruct (less x y) eqn:Hxy.
    + apply less_keyLt, keyLt_keyLe in Hxy.
      constructor; [by constructor|].
      constructor; [done|].
      eapply Forall_impl; [exact Hy|]. intros z Hz. by eapply keyLe_trans.
    + apply less_false_keyLe in Hxy.
      constructor; [done|].
      rewrite insertSorted_perm. by constructor.
Qed.

Lemma sortSlice_sorted_acc (l acc : list repoFile) :
  StronglySorted keyLe acc →
  StronglySorted keyLe (fold_left (fun sorted x => insertSorted less x sorted) l acc).
Proof.
  revert acc. induction l as [|x l IH]; intros acc Hacc; simpl; [done|].
  by apply IH, insertSorted_sorted.
Qed.

Lemma sortSlice_sorted (l : list repoFile) : StronglySorted keyLe (sortSlice less l).
Proof. apply sortSlice_sorted_acc. constructor. Qed.

Lemma StronglySorted_lookup {A : Type} (R : A → A → Prop) (l : list A)
  (i j : nat) (x y : A) :
  StronglySorted R l → l !! i = Some x → l !! j = Some y → (i < j)%nat → R x y.
Proof.
  intros Hs. revert i j. induction Hs as [|z l Hl IH Hz]; intros i j Hi Hj Hij.
  - done.
  - destruct i as [|i], j as [|j]; simpl in *; try lia.
    + injection Hi as ->. rewrite Forall_forall in Hz.
      apply Hz. by eapply list_elem_of_lookup_2.
    + eapply IH; [done..|lia].
Qed.

(** C7.  The files [repoCVEFiles] returns are the files of the walk, in
    ascending order of year and number compared as integers; of two files
    of the list, the one with the smaller year, or the same year and the
    smaller number, comes first. *)
Theorem repoCVEFiles_sorted (commit : Commit) (files : list repoFile) :
  repoCVEFiles commit = Ok files →
  StronglySorted keyLe files ∧
  (∃ root walked,
      rootTree commit = Ok root ∧ walkFiles root "" [] = Ok walked ∧
      files ≡ₚ walked) ∧
  ∀ (i j : nat) (f g : repoFile),
    files !! i = Some f → files !! j = Some g → keyLt f g → (i < j)%nat.
Proof.
  unfold repoCVEFiles. intros H.
  destruct (rootTree commit) as [root| |] eqn:Hroot; simpl in H; try discriminate.
  destruct (walkFiles root "" []) as [walked| |] eqn:Hwalk; simpl in H; try discriminate.
  injection H as <-.
  assert (Hs := sortSlice_sorted walked).
  split; [done|]. split.
  { exists root, walked. repeat split; try done. apply sortSlice_perm. }
  intros i j f g Hi Hj Hlt.
  destruct (Nat.lt_trichotomy i j) as [Hij|[->|Hji]]; [done| |].
  - rewrite Hi in Hj. injection Hj as ->. unfold keyLt in Hlt. lia.
  - exfalso. apply (keyLt_not_keyLe f g Hlt).
    by eapply (StronglySorted_lookup keyLe _ j i g f Hs).
Qed.

(** ** Grouping by directory *)

Lemma groupLoop_runsFrom (files : list repoFile) (result : list (list repoFile))
  (curDir : list repoFile) :
  (let '(result', curDir') := groupLoop files result curDir in
   match curDir' with [] => result' | _ => result' ++ [curDir'] end)
  = result ++ runsFrom curDir files.
Proof.
  revert result curDir. induction files as [|f files IH]; intros result curDir; simpl.
  - destruct curDir; [by rewrite app_nil_r | done].
  - destruct curDir as [|c curDir].
    + apply IH.
    + destruct (negb (String.eqb (dirPath f) (dirPath c))).
      * rewrite IH. by rewrite <- app_assoc.
      * apply IH.
Qed.

Lemma runsFrom_concat (files curDir : list repoFile) :
  concat (runsFrom curDir files) = curDir ++ files.
Proof.
  revert curDir. induction files as [|f files IH]; intros curDir; simpl.
  - destruct curDir; simpl; by rewrite ?app_nil_r.
  - destruct curDir as [|c curDir]; [by rewrite IH|].
    destruct (negb _).
    + simpl. by rewrite IH.
    + rewrite IH. by rewrite <- app_assoc.
Qed.

Lemma runsFrom_runs (files curDir : list repoFile) :
  (curDir = [] ∨ isRun curDir) → Forall isRun (runsFrom curDir files).
Proof.
  revert curDir. induction files as [|f files IH]; intros curDir Hcur; simpl.
  - destruct curDir; [constructor|].
    destruct Hcur as [?|Hcur]; [done|]. constructor; [done | constructor].
  - assert (Hf : isRun [f]).
    { split; [done|]. by intros ? ->%list_elem_of_singleton. }
    destruct curDir as [|c curDir]; [by apply IH; right|].
    destruct Hcur as [?|[_ Hcur]]; [done|].
    destruct (String.eqb_spec (dirPath f) (dirPath c)) as [He|Hne]; simpl.
    + apply IH. right. split; [done|].
      intros g [Hg| ->%list_elem_of_singleton]%(elem_of_app (c :: curDir)); [|done].
      by apply Hcur.
    + constructor; [by split|]. by apply IH; right.
Qed.

Lemma runsFrom_dirs (files : list repoFile) (c : repoFile) (curDir : list repoFile) :
  map groupDir (runsFrom (c :: curDir) files) = compressFrom (dirPath c) (map dirPath files).
Proof.
  revert c curDir. induction files as [|f files IH]; intros c curDir; simpl; [done|].
  destruct (negb (String.eqb (dirPath f) (dirPath c))); simpl.
  - by rewrite IH.
  - apply (IH c (curDir ++ [f])).
Qed.

Lemma groupFilesByDirectory_runs (files : list repoFile) :
  groupFilesByDirectory files =
  (let? _ := checkSeen (runsFrom [] files) ∅ in Ok (runsFrom [] files)).
Proof.
  destruct files as [|f files]; [done|].
  unfold groupFilesByDirectory.
  pose proof (groupLoop_runsFrom (f :: files) [] []) as H.
  destruct (groupLoop (f :: files) [] []) as [result curDir].
  simpl app in H. by rewrite H.
Qed.

Lemma existsb_eqb_elem (d : string) (ds : list string) :
  existsb (String.eqb d) ds = true ↔ d ∈ ds.
Proof.
  rewrite existsb_exists. split.
  - intros (x & Hx & ->%String.eqb_eq). by apply list_elem_of_In.
  - intros Hd. exists d. split; [by apply list_elem_of_In | apply String.eqb_refl].
Qed.

Lemma returnsTo_elem (d : string) (ds : list string) :
  returnsTo d ds = true → d ∈ ds.
Proof.
  induction ds as [|y ds IH]; simpl; [done|].
  intros [[_ H]%andb_true_iff|H]%orb_true_iff.
  - apply list_elem_of_further. by apply existsb_eqb_elem.
  - apply list_elem_of_further. auto.
Qed.

Lemma elem_of_compressFrom (x d : string) (ds : list string) :
  x ∈ compressFrom d ds ↔ x = d ∨ x ∈ ds.
Proof.
  revert d. induction ds as [|y ds IH]; intros d; simpl.
  - rewrite list_elem_of_singleton. split; [by left|]. intros [?|H]; [done|inversion H].
  - destruct (String.eqb_spec y d) as [->|Hne]; simpl.
    + rewrite IH, elem_of_cons. tauto.
    + rewrite !elem_of_cons, IH. tauto.
Qed.

(** The runs have pairwise distinct directories exactly when no directory
    is left and met again. *)
Lemma NoDup_compressFrom (d : string) (ds : list string) :
  NoDup (compressFrom d ds) ↔ nonContiguous (d :: ds) = false.
Proof.
  revert d. induction ds as [|x ds IH]; intros d.
  - simpl. split; [done|]. intros _. apply NoDup_singleton.
  - change (compressFrom d (x :: ds)) with
      (if negb (String.eqb x d) then d :: compressFrom x ds else compressFrom d ds).
    change (nonContiguous (d :: x :: ds)) with
      (((negb (String.eqb x d) && existsb (String.eqb d) ds) || returnsTo d ds)
       || nonContiguous (x :: ds)).
    destruct (String.eqb_spec x d) as [->|Hne]; simpl negb; cbv iota.
    + rewrite IH. simpl. destruct (returnsTo d ds); simpl; done.
    + rewrite NoDup_cons, IH, elem_of_compressFrom.
      rewrite andb_true_l.
      destruct (existsb (String.eqb d) ds) eqn:He.
      * apply existsb_eqb_elem in He. simpl. split; [|done].
        intros [Hn _]. destruct Hn. by right.
      * simpl orb at 1.
        assert (Hd : d ∉ ds).
        { intros Hd%existsb_eqb_elem. congruence. }
        destruct (returnsTo d ds) eqn:Hr.
        { apply returnsTo_elem in Hr. done. }
        simpl orb at 1. split; [by intros [_ ?]|].
        intros Hnc. split; [|done]. intros [?|?]; [congruence | done].
Qed.

(** [returnsTo] and [nonContiguous] in words: the sequence reads
    ... x ... y ... x ... with y another path than x. *)
Lemma returnsTo_spec (d : string) (ds : list string) :
  returnsTo d ds = true ↔
  ∃ l2 y l3 l4, ds = l2 ++ y :: l3 ++ d :: l4 ∧ y ≠ d.
Proof.
  split.
  - induction ds as [|z ds IH]; simpl; [done|].
    intros [[Hz Hd]%andb_true_iff|Hr]%orb_true_iff.
    + apply existsb_eqb_elem, list_elem_of_split in Hd as (l3 & l4 & ->).
      exists [], z, l3, l4. split; [done|].
      apply negb_true_iff in Hz. by apply String.eqb_neq.
    + destruct (IH Hr) as (l2 & y & l3 & l4 & -> & Hy).
      by exists (z :: l2), y, l3, l4.
  - intros (l2 & y & l3 & l4 & -> & Hy).
    induction l2 as [|z l2 IH]; simpl.
    + apply orb_true_iff. left. apply andb_true_iff. split.
      * apply negb_true_iff. by apply String.eqb_neq.
      * apply existsb_eqb_elem, elem_of_app. right. apply list_elem_of_here.
    + apply orb_true_iff. by right.
Qed.

Lemma nonContiguous_spec (ds : list string) :
  nonContiguous ds = true ↔
  ∃ l1 x l2 y l3 l4, ds = l1 ++ x :: l2 ++ y :: l3 ++ x :: l4 ∧ y ≠ x.
Proof.
  split.
  - induction ds as [|x ds IH]; simpl; [done|].
    intros [Hr|Hn]%orb_true_iff.
    + apply returnsTo_spec in Hr as (l2 & y & l3 & l4 & -> & Hy).
      by exists [], x, l2, y, l3, l4.
    + destruct (IH Hn) as (l1 & x' & l2 & y & l3 & l4 & -> & Hy).
      by exists (x :: l1), x', l2, y, l3, l4.
  - intros (l1 & x & l2 & y & l3 & l4 & -> & Hy).
    induction l1 as [|z l1 IH]; simpl.
    + apply orb_true_iff. left. apply returnsTo_spec. by exists l2, y, l3, l4.
    + apply orb_true_iff. by right.
Qed.

Lemma checkSeen_spec (groups : list (list repoFile)) (seen : gset string) :
  Forall isRun groups →
  (NoDup (map groupDir groups) ∧ (∀ d, d ∈ map groupDir groups → d ∉ seen) ∧
   checkSeen groups seen = Ok tt) ∨
  (¬ (NoDup (map groupDir groups) ∧ ∀ d, d ∈ map groupDir groups → d ∉ seen) ∧
   ∃ e, checkSeen groups seen = Err e).
Proof.
  intros Hruns. revert seen.
  induction Hruns as [|g groups [Hg _] Hruns IH]; intros seen.
  - left. simpl. split; [constructor|]. split; [|done]. intros d Hd. inversion Hd.
  - destruct g as [|d0 g]; [done|]. simpl.
    destruct (decide (dirPath d0 ∈ seen)) as [Hin|Hnin].
    + right. split; [|eauto]. intros [_ H].
      destruct (H (dirPath d0)); [by left | done].
    + destruct (IH ({[dirPath d0]} ∪ seen)) as [(Hnd & Hdis & Hok)|[Hbad He]].
      * left. split; [|split; [|done]].
        -- constructor; [|done]. intros Hd. apply (Hdis _ Hd).
           apply elem_of_union. left. by apply elem_of_singleton.
        -- intros d [->|Hd]%elem_of_cons; [done|].
           intros Hs. apply (Hdis d Hd). apply elem_of_union. by right.
      * right. split; [|done]. intros [[Hnd1 Hnd2]%NoDup_cons Hdis].
        apply Hbad. split; [done|].
        intros d Hd. specialize (Hdis d (list_elem_of_further _ _ _ Hd)).
        intros [->%elem_of_singleton|?]%elem_of_union; done.
Qed.

Lemma runs_NoDup (files : list repoFile) :
  NoDup (map groupDir (runsFrom [] files)) ↔ nonContiguous (map dirPath files) = false.
Proof.
  destruct files as [|f files].
  - simpl. split; [done|]. intros _. constructor.
  - change (runsFrom [] (f :: files)) with (runsFrom [f] files).
    rewrite runsFrom_dirs. apply NoDup_compressFrom.
Qed.

(** C6.  When some directory path appears in two runs of the list that are
    not adjacent, [groupFilesByDirectory] returns an error, and [doUpdate],
    which groups the files before its first call of the store, returns with
    the store as it found it.  When no path does, [groupFilesByDirectory]
    returns groups that, one after the other, make up the list, each of
    them a run of one directory, and no two of them of the same
    directory. *)
Theorem groupFilesByDirectory_contiguity (files : list repoFile) :
  (nonContiguous (map dirPath files) = true →
   (∃ e, groupFilesByDirectory files = Err e) ∧
   ∀ (T : Type) (repo : Repository) (commitHash : Hash) (needsIssue : triageFunc T)
     (startedAt endedAt : Z) (s : MemStore * T) (commit : Commit),
     CommitObject repo commitHash = Ok commit →
     repoCVEFiles commit = Ok files →
     ∃ e, doUpdate repo commitHash needsIssue startedAt endedAt s
          = (Returned None (Some e), s)) ∧
  (nonContiguous (map dirPath files) = false →
   ∃ groups,
     groupFilesByDirectory files = Ok groups ∧
     concat groups = files ∧
     Forall isRun groups ∧
     NoDup (map groupDir groups)).
Proof.
  pose proof (runsFrom_runs files [] (or_introl eq_refl)) as Hruns.
  pose proof (checkSeen_spec (runsFrom [] files) ∅ Hruns) as Hseen.
  pose proof (runs_NoDup files) as Hnd.
  split; intros Hc.
  - assert (He : ∃ e, groupFilesByDirectory files = Err e).
    { rewrite groupFilesByDirectory_runs.
      destruct Hseen as [(Hn & _ & _)|[_ [e He]]].
      - apply Hnd in Hn. congruence.
      - exists e. by rewrite He. }
    split; [exact He|].
    intros T repo commitHash needsIssue startedAt endedAt s commit Hcommit Hfiles.
    destruct He as [e He].
    unfold doUpdate. rewrite Hcommit, Hfiles, He. simpl. eauto.
  - exists (runsFrom [] files). split; [|split; [|split]].
    + rewrite groupFilesByDirectory_runs.
      destruct Hseen as [(_ & _ & ->)|[Hbad _]]; [done|].
      destruct Hbad. split; [by apply Hnd|]. intros d _. apply not_elem_of_empty.
    + apply runsFrom_concat.
    + exact Hruns.
    + by apply Hnd.
Qed.

(** ** Batches and the marker of a directory *)

Lemma HashString_not_inProgress (h : Hash) : HashString h ≠ inProgress.
Proof.
  destruct h as [|b h]; [done|].
  unfold inProgress. simpl. intros H. injection H as H _.
  revert H. generalize (Byte.to_N b / 16)%N. intros n.
  unfold hexDigit. destruct n as [|p]; [discriminate|].
  repeat (destruct p as [p|p|]; try discriminate).
Qed.

(** A batch transaction changes the stored records only: it commits the
    writes its body buffered, or aborts. *)
Lemma updateBatch_effect {T : Type} (repo : Repository) (batch : list repoFile)
  (commitHash : Hash) (needsIssue : triageFunc T) (st : MemStore) (ts : T) :
  batch ≠ [] →
  match updateBatch repo batch commitHash needsIssue (st, ts) with
  | (Ok _, (st', _)) => ∃ tx, st' = commit tx st
  | (_, (st', _)) => st' = abort st
  end.
Proof.
  intros Hne. unfold updateBatch.
  destruct batch as [|first batch']; [done|].
  destruct (last (first :: batch')) as [final|] eqn:Hlast;
    [|by apply last_None in Hlast].
  unfold wrapM, RunTransaction. simpl fst. simpl snd.
  destruct (batchTransaction _ _ _ _ _ _ _) as [[counts|e|p] [tx ts']]; simpl; eauto.
Qed.

Lemma windowsFrom_nonempty (fuel : nat) (files : list repoFile) :
  Forall (fun b => b ≠ []) (windowsFrom fuel files).
Proof.
  revert files. induction fuel as [|fuel IH]; intros files; simpl; [constructor|].
  destruct files as [|f files]; constructor; [done | apply IH].
Qed.

(** The batch loop leaves the markers and the run records alone.  It adds
    one event per batch to the journal: commits as long as the batches
    succeed, and an abort where it stops. *)
Lemma directoryLoop_effect {T : Type} (repo : Repository) (commitHash : Hash)
  (needsIssue : triageFunc T) (batches : list (list repoFile)) :
  Forall (fun b => b ≠ []) batches →
  ∀ (numProc numAdds numMods : Z) (st : MemStore) (ts : T),
    match directoryLoop repo commitHash needsIssue batches numProc numAdds numMods (st, ts) with
    | (r, (st', _)) =>
        dirHashes st' = dirHashes st ∧
        updateRecords st' = updateRecords st ∧
        ∃ evs,
          Forall isCommitEv evs ∧
          match r with
          | Ok _ => journal st' = journal st ++ evs ∧ length evs = length batches
          | _ => journal st' = journal st ++ evs ++ [AbortEv] ∧
                 (length evs < length batches)%nat
          end
    end.
Proof.
  induction 1 as [|batch batches Hb Hbs IH]; intros numProc numAdds numMods st ts.
  - simpl. repeat split. exists []. by rewrite app_nil_r.
  - simpl. unfold bind.
    pose proof (updateBatch_effect repo batch commitHash needsIssue st ts Hb) as Hu.
    destruct (updateBatch repo batch commitHash needsIssue (st, ts))
      as [[n|e|p] [st1 ts1]].
    + destruct Hu as [tx ->].
      specialize (IH (numProc + Z.of_nat (length batch)) (numAdds + n.1) (numMods + n.2)
                    (commit tx st) ts1).
      destruct (directoryLoop _ _ _ _ _ _ _ _) as [r [st2 ts2]].
      destruct IH as (Hd & Hu & evs & Hevs & Hr).
      split; [done|]. split; [done|].
      exists (CommitEv (writes tx) :: evs). split; [by constructor|].
      destruct r; destruct Hr as [-> Hlen]; simpl; rewrite <- app_assoc;
        (split; [done | lia]).
    + subst st1. repeat split. exists []. split; [constructor|]. simpl. split; [done|lia].
    + subst st1. repeat split. exists []. split; [constructor|]. simpl. split; [done|lia].
Qed.

(** [updateDirectory] on a directory with a first file, step by step. *)
Lemma updateDirectory_unfold {T : Type} (repo : Repository) (d0 : repoFile)
  (rest : list repoFile) (commitHash : Hash) (needsIssue : triageFunc T)
  (st : MemStore) (ts : T) :
  updateDirectory repo (d0 :: rest) commitHash needsIssue (st, ts) =
  if String.eqb (HashString (treeHash d0)) (default "" (dirHashes st !! dirPath d0))
  then (Ok (0, 0, 0), (st, ts))
  else
    match directoryLoop repo commitHash needsIssue (windows (d0 :: rest)) 0 0 0
            ((SetDirectoryHash (dirPath d0) inProgress st).2, ts) with
    | (Ok counts, (st2, ts2)) =>
        (Ok counts,
         ((SetDirectoryHash (dirPath d0) (HashString (treeHash d0)) st2).2, ts2))
    | (Err e, s2) => (Err e, s2)
    | (Panic p, s2) => (Panic p, s2)
    end.
Proof.
  cbv [updateDirectory bind onFst GetDirectoryHash ret fst snd].
  destruct (String.eqb _ _); [reflexivity|].
  cbv [SetDirectoryHash].
  destruct (directoryLoop _ _ _ _ _ _ _ _) as [[counts|e|p] [st2 ts2]]; reflexivity.
Qed.

(** C5.  When the stored marker of a directory differs from its hash,
    [updateDirectory] first writes the sentinel as the marker, then runs the
    batch transactions, one per batch.  If they all commit, it then writes
    the hash of the directory as the marker.  If one fails, no batch after
    it runs, the hash is not written and the marker is the sentinel.  The
    sentinel is the string of no hash. *)
Theorem updateDirectory_sentinel {T : Type} (repo : Repository) (d0 : repoFile)
  (rest : list repoFile) (commitHash : Hash) (needsIssue : triageFunc T)
  (st : MemStore) (ts : T) :
  default "" (dirHashes st !! dirPath d0) ≠ HashString (treeHash d0) →
  (∀ h : Hash, HashString h ≠ inProgress) ∧
  match updateDirectory repo (d0 :: rest) commitHash needsIssue (st, ts) with
  | (r, (st', _)) =>
      ∃ evs,
        Forall isCommitEv evs ∧
        match r with
        | Ok _ =>
            journal st' =
              journal st ++ [SetDirectoryHashEv (dirPath d0) inProgress] ++ evs ++
              [SetDirectoryHashEv (dirPath d0) (HashString (treeHash d0))] ∧
            length evs = length (windows (d0 :: rest)) ∧
            dirHashes st' !! dirPath d0 = Some (HashString (treeHash d0))
        | _ =>
            journal st' =
              journal st ++ [SetDirectoryHashEv (dirPath d0) inProgress] ++ evs ++
              [AbortEv] ∧
            (length evs < length (windows (d0 :: rest)))%nat ∧
            dirHashes st' !! dirPath d0 = Some inProgress
        end
  end.
Proof.
  intros Hdiff. split; [apply HashString_not_inProgress|].
  rewrite updateDirectory_unfold.
  destruct (String.eqb_spec (HashString (treeHash d0))
              (default "" (dirHashes st !! dirPath d0))) as [He|_]; [congruence|].
  pose proof (directoryLoop_effect repo commitHash needsIssue (windows (d0 :: rest))
                (windowsFrom_nonempty _ _) 0 0 0
                (SetDirectoryHash (dirPath d0) inProgress st).2 ts) as Hloop.
  destruct (directoryLoop _ _ _ _ _ _ _ _) as [r [st2 ts2]].
  destruct Hloop as (Hd & Hu & evs & Hevs & Hr).
  destruct r as [counts|e|p]; exists evs; (split; [done|]);
    destruct Hr as [Hj Hlen]; cbv [SetDirectoryHash snd] in *; simpl in *;
    rewrite Hj, <- ?app_assoc; (split; [done|]); (split; [done|]);
    rewrite ?Hd; apply lookup_insert_eq.
Qed.

(** ** The loop over the directories *)

Lemma addCounts_zero (ur : CommitUpdateRecord.t) :
  CommitUpdateRecord.addCounts 0 0 0 ur = ur.
Proof.
  destruct ur. unfold CommitUpdateRecord.addCounts. simpl.
  by rewrite !Z.add_0_r.
Qed.

Lemma directoriesLoop_nil {T : Type} (repo : Repository) (commitHash : Hash)
  (needsIssue : triageFunc T) (endedAt : Z) (ur : CommitUpdateRecord.t)
  (s : MemStore * T) :
  directoriesLoop repo commitHash needsIssue endedAt [] ur s =
  (Returned (Some (CommitUpdateRecord.setEndedAt endedAt ur)) None,
   recorded (CommitUpdateRecord.setEndedAt endedAt ur) s).
Proof. reflexivity. Qed.

Lemma directoriesLoop_Ok {T : Type} (repo : Repository) (commitHash : Hash)
  (needsIssue : triageFunc T) (endedAt : Z) (dirFiles : list repoFile)
  (rest : list (list repoFile)) (ur : CommitUpdateRecord.t) (s s1 : MemStore * T)
  (p a m : Z) :
  updateDirectory repo dirFiles commitHash needsIssue s = (Ok (p, a, m), s1) →
  directoriesLoop repo commitHash needsIssue endedAt (dirFiles :: rest) ur s =
  directoriesLoop repo commitHash needsIssue endedAt rest
    (CommitUpdateRecord.addCounts p a m ur)
    (recorded (CommitUpdateRecord.addCounts p a m ur) s1).
Proof. intros H. simpl. rewrite H. reflexivity. Qed.

Lemma directoriesLoop_Err {T : Type} (repo : Repository) (commitHash : Hash)
  (needsIssue : triageFunc T) (endedAt : Z) (dirFiles : list repoFile)
  (rest : list (list repoFile)) (ur : CommitUpdateRecord.t) (s s1 : MemStore * T)
  (e : string) :
  updateDirectory repo dirFiles commitHash needsIssue s = (Err e, s1) →
  directoriesLoop repo commitHash needsIssue endedAt (dirFiles :: rest) ur s =
  directoriesLoop repo commitHash needsIssue endedAt rest
    (CommitUpdateRecord.setError e ur)
    (recorded (CommitUpdateRecord.setError e ur)
       (recorded (CommitUpdateRecord.setError e ur) s1)).
Proof.
  intros H. simpl. rewrite H. cbv [onFst SetCommitUpdateRecord].
  rewrite addCounts_zero. reflexivity.
Qed.

(** The errors of a batch, and so of a directory, carry the name of the
    batch: their text is not empty. *)
Lemma updateBatch_Err_nonempty {T : Type} (repo : Repository) (batch : list repoFile)
  (commitHash : Hash) (needsIssue : triageFunc T) (s s1 : MemStore * T) (e : string) :
  updateBatch repo batch commitHash needsIssue s = (Err e, s1) → e ≠ "".
Proof.
  unfold updateBatch. destruct batch as [|first batch']; [discriminate|].
  destruct (last (first :: batch')); [|discriminate].
  unfold wrapM. destruct (RunTransaction _ _) as [[c|e0|p] s2]; simpl; try discriminate.
  intros H. injection H as <- _. discriminate.
Qed.

Lemma directoryLoop_Err_nonempty {T : Type} (repo : Repository) (commitHash : Hash)
  (needsIssue : triageFunc T) (batches : list (list repoFile))
  (p a m : Z) (s s1 : MemStore * T) (e : string) :
  directoryLoop repo commitHash needsIssue batches p a m s = (Err e, s1) → e ≠ "".
Proof.
  revert p a m s. induction batches as [|batch batches IH]; intros p a m s; simpl.
  - discriminate.
  - unfold bind.
    destruct (updateBatch repo batch commitHash needsIssue s) as [[n|e0|p0] s2] eqn:Hb.
    + apply IH.
    + intros H. injection H as <- _. by eapply updateBatch_Err_nonempty.
    + discriminate.
Qed.

Lemma updateDirectory_Err_nonempty {T : Type} (repo : Repository)
  (dirFiles : list repoFile) (commitHash : Hash) (needsIssue : triageFunc T)
  (s s1 : MemStore * T) (e : string) :
  updateDirectory repo dirFiles commitHash needsIssue s = (Err e, s1) → e ≠ "".
Proof.
  destruct dirFiles as [|d0 rest]; [discriminate|]. destruct s as [st ts].
  rewrite updateDirectory_unfold.
  destruct (String.eqb _ _); [discriminate|].
  destruct (directoryLoop _ _ _ _ _ _ _ _) as [[c|e0|p] [st2 ts2]] eqn:Hl;
    try discriminate.
  intros H. injection H as <- _. by eapply directoryLoop_Err_nonempty.
Qed.

(** However the directories fare, the loop returns the run record with
    the end time, no error of its own, and the record is the one the store
    holds for the commit; an error text once set is never cleared. *)
Lemma directoriesLoop_returns {T : Type} (repo : Repository) (commitHash : Hash)
  (needsIssue : triageFunc T) (endedAt : Z) (dirs : list (list repoFile)) :
  ∀ (ur : CommitUpdateRecord.t) (s : MemStore * T),
    match directoriesLoop repo commitHash needsIssue endedAt dirs ur s with
    | (Returned ur' err, s') =>
        ∃ u, ur' = Some u ∧ err = None ∧
             CommitUpdateRecord.EndedAt u = endedAt ∧
             CommitUpdateRecord.CommitHash u = CommitUpdateRecord.CommitHash ur ∧
             (CommitUpdateRecord.Error ur ≠ "" → CommitUpdateRecord.Error u ≠ "") ∧
             updateRecords s'.1 !! CommitUpdateRecord.CommitHash u = Some u
    | (Panicked _, _) => True
    end.
Proof.
  induction dirs as [|dirFiles dirs IH]; intros ur s.
  - rewrite directoriesLoop_nil. eexists. repeat split; try done.
    cbv [recorded SetCommitUpdateRecord fst snd]. apply lookup_insert_eq.
  - destruct (updateDirectory repo dirFiles commitHash needsIssue s)
      as [[[[p a] m]|e|msg] s1] eqn:Hd.
    + rewrite (directoriesLoop_Ok _ _ _ _ _ _ _ _ _ _ _ _ Hd).
      specialize (IH (CommitUpdateRecord.addCounts p a m ur)
                    (recorded (CommitUpdateRecord.addCounts p a m ur) s1)).
      destruct (directoriesLoop _ _ _ _ _ _ _) as [[ur' err|msg] s']; [|done].
      destruct IH as (u & -> & -> & He & Hc & Herr & Hu). exists u. done.
    + rewrite (directoriesLoop_Err _ _ _ _ _ _ _ _ _ _ Hd).
      specialize (IH (CommitUpdateRecord.setError e ur)
                    (recorded (CommitUpdateRecord.setError e ur)
                       (recorded (CommitUpdateRecord.setError e ur) s1))).
      destruct (directoriesLoop _ _ _ _ _ _ _) as [[ur' err|msg] s']; [|done].
      destruct IH as (u & -> & -> & He & Hc & Herr & Hu). exists u.
      repeat split; try done. intros _. apply Herr. simpl.
      by eapply updateDirectory_Err_nonempty.
    + simpl. rewrite Hd. done.
Qed.



(** ** Running twice *)

Lemma doUpdate_Returned_inv {T : Type} (repo : Repository) (commitHash : Hash)
  (needsIssue : triageFunc T) (startedAt endedAt : Z) (s s1 : MemStore * T)
  (ur1 : CommitUpdateRecord.t) :
  doUpdate repo commitHash needsIssue startedAt endedAt s = (Returned (Some ur1) None, s1) →
  ∃ commit files groups,
    CommitObject repo commitHash = Ok commit ∧
    repoCVEFiles commit = Ok files ∧
    groupFilesByDirectory files = Ok groups ∧
    directoriesLoop repo commitHash needsIssue endedAt groups
      (initialRecord commitHash commit files startedAt)
      (created (initialRecord commitHash commit files startedAt) s)
    = (Returned (Some ur1) None, s1).
Proof.
  unfold doUpdate.
  destruct (CommitObject repo commitHash) as [commit|e|p] eqn:Hc; [|discriminate..].
  destruct (repoCVEFiles commit) as [files|e|p] eqn:Hf; [|discriminate..].
  destruct (groupFilesByDirectory files) as [groups|e|p] eqn:Hg; [|discriminate..].
  cbv [onFst CreateCommitUpdateRecord]. simpl fst at 1. simpl snd at 1.
  intros H. exists commit, files, groups. do 3 (split; [done|]).
  fold (initialRecord commitHash commit files startedAt) in H.
  destruct (directoriesLoop _ _ _ _ _ _ _) as [[ur' [err|]|msg] s'] eqn:Hl;
    simpl in H; try discriminate.
  injection H as -> ->. reflexivity.
Qed.

(** A directory that is processed without error ends with its hash as its
    marker; the markers of the other directories are left alone. *)
Lemma updateDirectory_Ok_marked {T : Type} (repo : Repository) (g : list repoFile)
  (commitHash : Hash) (needsIssue : triageFunc T) (s s1 : MemStore * T) (c : Z * Z * Z) :
  updateDirectory repo g commitHash needsIssue s = (Ok c, s1) →
  marked s1.1 g ∧ ∀ d, d ≠ groupDir g → dirHashes s1.1 !! d = dirHashes s.1 !! d.
Proof.
  destruct g as [|d0 rest]; [discriminate|]. destruct s as [st ts].
  rewrite updateDirectory_unfold.
  destruct (String.eqb_spec (HashString (treeHash d0))
              (default "" (dirHashes st !! dirPath d0))) as [He|Hne].
  - intros H. injection H as _ <-. by split.
  - pose proof (directoryLoop_effect repo commitHash needsIssue (windows (d0 :: rest))
                  (windowsFrom_nonempty _ _) 0 0 0
                  (SetDirectoryHash (dirPath d0) inProgress st).2 ts) as Hloop.
    destruct (directoryLoop _ _ _ _ _ _ _ _) as [[c2|e|p] [st2 ts2]]; try discriminate.
    destruct Hloop as (Hd & _). intros H. injection H as _ <-.
    cbv [SetDirectoryHash snd fst marked groupDir] in *. simpl in *. split.
    + by rewrite lookup_insert_eq.
    + intros d Hdne. rewrite lookup_insert_ne by done. rewrite Hd.
      by rewrite lookup_insert_ne.
Qed.

(** A directory whose marker is its hash is skipped. *)
Lemma updateDirectory_marked {T : Type} (repo : Repository) (g : list repoFile)
  (commitHash : Hash) (needsIssue : triageFunc T) (s : MemStore * T) :
  marked s.1 g → updateDirectory repo g commitHash needsIssue s = (Ok (0, 0, 0), s).
Proof.
  destruct g as [|d0 rest]; [done|]. destruct s as [st ts]. intros Hm.
  rewrite updateDirectory_unfold. simpl in Hm. rewrite Hm. by rewrite String.eqb_refl.
Qed.

(** After a run in which no directory failed, every directory has its
    hash as its marker. *)
Lemma directoriesLoop_all_marked {T : Type} (repo : Repository) (commitHash : Hash)
  (needsIssue : triageFunc T) (endedAt : Z) (dirs : list (list repoFile)) :
  NoDup (map groupDir dirs) →
  ∀ (ur u : CommitUpdateRecord.t) (s s1 : MemStore * T),
    directoriesLoop repo commitHash needsIssue endedAt dirs ur s
      = (Returned (Some u) None, s1) →
    CommitUpdateRecord.Error u = "" →
    (∀ g, g ∈ dirs → marked s1.1 g) ∧
    (∀ d, d ∉ map groupDir dirs → dirHashes s1.1 !! d = dirHashes s.1 !! d).
Proof.
  induction dirs as [|g dirs IH]; intros Hnd ur u s s1 Hl Herr.
  - rewrite directoriesLoop_nil in Hl. injection Hl as _ <-.
    split; [intros g Hg; inversion Hg | done].
  - apply NoDup_cons in Hnd as [Hg Hnd].
    destruct (updateDirectory repo g commitHash needsIssue s)
      as [[[[p a] m]|e|msg] s2] eqn:Hd.
    + rewrite (directoriesLoop_Ok _ _ _ _ _ _ _ _ _ _ _ _ Hd) in Hl.
      destruct (IH Hnd _ _ _ _ Hl Herr) as [Hmarked Hother].
      apply updateDirectory_Ok_marked in Hd as [Hm Hkeep].
      split.
      * intros g' [->|Hg']%elem_of_cons; [|auto].
        destruct g as [|d0 rest]; [done|]. unfold marked in *.
        by rewrite (Hother (dirPath d0) Hg).
      * intros d Hd. apply not_elem_of_cons in Hd as [Hdg Hd].
        rewrite (Hother d Hd). simpl. by apply Hkeep.
    + rewrite (directoriesLoop_Err _ _ _ _ _ _ _ _ _ _ Hd) in Hl.
      pose proof (directoriesLoop_returns repo commitHash needsIssue endedAt dirs
                    (CommitUpdateRecord.setError e ur)
                    (recorded (CommitUpdateRecord.setError e ur)
                       (recorded (CommitUpdateRecord.setError e ur) s2))) as Hr.
      rewrite Hl in Hr. destruct Hr as (u' & Hu & _ & _ & _ & Hne & _).
      injection Hu as <-. destruct Hne; [|done]. simpl.
      by eapply updateDirectory_Err_nonempty.
    + simpl in Hl. rewrite Hd in Hl. discriminate.
Qed.

(** When every directory has its hash as its marker, the loop skips them
    all: it touches neither the records nor the markers, does not call the
    triage function, and counts nothing. *)
Lemma directoriesLoop_all_skipped {T : Type} (repo : Repository) (commitHash : Hash)
  (needsIssue : triageFunc T) (endedAt : Z) (dirs : list (list repoFile)) :
  ∀ (ur : CommitUpdateRecord.t) (s : MemStore * T),
    (∀ g, g ∈ dirs → marked s.1 g) →
    ∃ s1,
      directoriesLoop repo commitHash needsIssue endedAt dirs ur s
        = (Returned (Some (CommitUpdateRecord.setEndedAt endedAt ur)) None, s1) ∧
      cveRecords s1.1 = cveRecords s.1 ∧
      dirHashes s1.1 = dirHashes s.1 ∧
      s1.2 = s.2.
Proof.
  induction dirs as [|g dirs IH]; intros ur s Hm.
  - rewrite directoriesLoop_nil. eexists. split; [reflexivity|]. done.
  - rewrite (directoriesLoop_Ok _ _ _ _ _ _ _ _ _ _ _ _
               (updateDirectory_marked repo g commitHash needsIssue s
                  (Hm g (list_elem_of_here _ _)))).
    rewrite addCounts_zero.
    destruct (IH ur (recorded ur s)) as (s1 & Hl & Hc & Hd & Ht).
    { intros g' Hg'. specialize (Hm g' (list_elem_of_further _ _ _ Hg')).
      destruct g'; [done|]. exact Hm. }
    exists s1. split; [exact Hl|]. rewrite Hc, Hd, Ht. done.
Qed.

Lemma groupFilesByDirectory_Ok (files : list repoFile) (groups : list (list repoFile)) :
  groupFilesByDirectory files = Ok groups → NoDup (map groupDir groups).
Proof.
  rewrite groupFilesByDirectory_runs.
  destruct (checkSeen_spec (runsFrom [] files) ∅
              (runsFrom_runs files [] (or_introl eq_refl))) as [(Hnd & _ & ->)|[_ [e ->]]];
    simpl; [|discriminate].
  by intros [= <-].
Qed.

(** C4.  A run of [doUpdate] that returns without error and with no error
    in its run record (no directory failed) leaves a store on which a
    second run on the same commit, with any triage function, returns a run
    record that counts no file processed, added or modified, leaves every
    stored record and every marker as it was, and does not call the triage
    function. *)
Theorem doUpdate_idempotent {T : Type} (repo : Repository) (commitHash : Hash)
  (needsIssue needsAgain : triageFunc T) (t0 t1 t2 t3 : Z) (s0 s1 : MemStore * T)
  (ur1 : CommitUpdateRecord.t) :
  doUpdate repo commitHash needsIssue t0 t1 s0 = (Returned (Some ur1) None, s1) →
  CommitUpdateRecord.Error ur1 = "" →
  ∃ ur2 s2,
    doUpdate repo commitHash needsAgain t2 t3 s1 = (Returned (Some ur2) None, s2) ∧
    CommitUpdateRecord.NumProcessed ur2 = 0 ∧
    CommitUpdateRecord.NumAdded ur2 = 0 ∧
    CommitUpdateRecord.NumModified ur2 = 0 ∧
    CommitUpdateRecord.Error ur2 = "" ∧
    cveRecords s2.1 = cveRecords s1.1 ∧
    dirHashes s2.1 = dirHashes s1.1 ∧
    s2.2 = s1.2.
Proof.
  intros Hrun Herr.
  apply doUpdate_Returned_inv in Hrun as (commit & files & groups & Hc & Hf & Hg & Hl).
  pose proof (groupFilesByDirectory_Ok files groups Hg) as Hnd.
  destruct (directoriesLoop_all_marked repo commitHash needsIssue t1 groups Hnd
              _ _ _ _ Hl Herr) as [Hmarked _].
  destruct (directoriesLoop_all_skipped repo commitHash needsAgain t3 groups
              (initialRecord commitHash commit files t2)
              (created (initialRecord commitHash commit files t2) s1))
    as (s2 & Hl2 & Hrec & Hdir & Hts).
  { intros g Hgin. specialize (Hmarked g Hgin). destruct g; [done|]. exact Hmarked. }
  exists (CommitUpdateRecord.setEndedAt t3 (initialRecord commitHash commit files t2)), s2.
  split.
  - unfold doUpdate. rewrite Hc, Hf, Hg.
    cbv [onFst CreateCommitUpdateRecord]. simpl fst at 1. simpl snd at 1.
    fold (initialRecord commitHash commit files t2).
    change (directoriesLoop repo commitHash needsAgain t3 groups
              (initialRecord commitHash commit files t2) _)
      with (directoriesLoop repo commitHash needsAgain t3 groups
              (initialRecord commitHash commit files t2)
              (created (initialRecord commitHash commit files t2) s1)).
    by rewrite Hl2.
  - rewrite Hrec, Hdir, Hts. done.
Qed.

(** ** The range read of a batch *)

(** What does hold of the range read.  The index built from a list of
    records with distinct IDs holds each of them under its ID. *)
Lemma indexByID_lookup (crs : list CVERecord.t) (r : CVERecord.t) :
  NoDup (map CVERecord.ID crs) → r ∈ crs →
  indexByID crs !! CVERecord.ID r = Some r.
Proof.
  unfold indexByID. induction crs as [|c crs IH] using rev_ind; intros Hnd Hin.
  - inversion Hin.
  - rewrite fold_left_app. simpl.
    rewrite map_app in Hnd. apply NoDup_app in Hnd as (Hnd & Hc & _).
    apply elem_of_app in Hin as [Hin| ->%list_elem_of_singleton].
    + rewrite lookup_insert_ne; [by apply IH|].
      intros Heq. apply (Hc (CVERecord.ID r)).
      * apply list_elem_of_fmap. by exists r.
      * simpl. rewrite Heq. apply list_elem_of_here.
    + apply lookup_insert_eq.
Qed.

(** On a store whose records are keyed by their IDs, the index built from
    the range read holds the stored record of every ID inside the range,
    in the order of strings. *)
Lemma GetCVERecords_in_range (tx : Transaction) (startID endID id : string)
  (r : CVERecord.t) :
  (∀ k c, snapshot tx !! k = Some c → CVERecord.ID c = k) →
  snapshot tx !! id = Some r →
  inRange startID endID id = true →
  ∃ crs, (GetCVERecords startID endID tx).1 = Ok crs ∧ indexByID crs !! id = Some r.
Proof.
  intros Hwf Hr Hin. eexists. split; [reflexivity|].
  rewrite <- (Hwf id r Hr). apply indexByID_lookup.
  - assert (Hkeys : NoDup (map CVERecord.ID (map_to_list (snapshot tx)).*2)).
    { assert (Heq : map CVERecord.ID (map_to_list (snapshot tx)).*2
                    = (map_to_list (snapshot tx)).*1).
      { assert (Hl : ∀ k c, (k, c) ∈ map_to_list (snapshot tx) → CVERecord.ID c = k).
        { intros k c Hkc. by apply Hwf, elem_of_map_to_list. }
        revert Hl.
        induction (map_to_list (snapshot tx)) as [|[k c] l IH]; intros Hl; [done|].
        simpl. f_equal.
        - apply Hl. apply list_elem_of_here.
        - apply IH. intros i x Hix. apply Hl. by apply list_elem_of_further. }
      rewrite Heq. apply NoDup_fst_map_to_list. }
    revert Hkeys. generalize ((map_to_list (snapshot tx)).*2). intros l.
    induction l as [|c l IH]; intros Hnd; [constructor|].
    apply NoDup_cons in Hnd as [Hc Hnd]. simpl.
    rewrite filter_cons. destruct (decide _); [|by apply IH].
    simpl. constructor; [|by apply IH].
    intros Hin'. apply Hc. apply list_elem_of_fmap in Hin' as (x & -> & Hx).
    apply list_elem_of_fmap. exists x. split; [done|].
    by apply list_elem_of_filter in Hx as [_ Hx].
  - apply list_elem_of_filter. split.
    + by rewrite (Hwf id r Hr).
    + apply list_elem_of_fmap. exists (id, r). split; [done|].
      by apply elem_of_map_to_list.
Qed.

(** A file whose record in the index has the hash of the file is skipped:
    the transaction runs as if the file were not in the batch. *)
Lemma batchLoop_skips_unchanged {T : Type} (repo : Repository) (commitHash : Hash)
  (needsIssue : triageFunc T) (idToRecord : gmap string CVERecord.t)
  (before after : list repoFile) (f : repoFile) :
  unchanged (idToRecord !! idFromFilename (filename f)) f = true →
  ∀ (numAdds numMods : Z) (s : Transaction * T),
    batchLoop repo commitHash needsIssue idToRecord (before ++ f :: after) numAdds numMods s =
    batchLoop repo commitHash needsIssue idToRecord (before ++ after) numAdds numMods s.
Proof.
  intros Hf. induction before as [|g before IH]; intros numAdds numMods s; simpl.
  - by rewrite Hf.
  - destruct (unchanged _ g); [apply IH|].
    unfold bind. destruct (handleCVE _ _ _ _ _ _) as [[[|]|e|p] s1]; try done; apply IH.
Qed.


(** ** The theorems at the sample inputs *)

Lemma handleCVE_transition_table_witness :
  blobReader threeDirsFullRepo (blobHash file2020) = Ok (Ok (publicCVE "CVE-2020-0001")) ∧
  needsAction (recordingTriage false) (publicCVE "CVE-2020-0001") []
    = (Ok false, ["CVE-2020-0001"]) ∧
  handleCVE threeDirsFullRepo file2020 (Some issueCreatedRecord) (hashOf Byte.xc0)
    (recordingTriage false) (begin emptyStore, [])
  = (Ok false,
     ({| snapshot := ∅;
         writes :=
           [SetCVE
              {| CVERecord.ID := "CVE-2020-0001";
                 CVERecord.Path := "2020/CVE-2020-0001.json";
                 CVERecord.BlobHash := "a2a2a2a2a2a2a2a2a2a2a2a2a2a2a2a2a2a2a2a2";
                 CVERecord.CommitHash := "c0c0c0c0c0c0c0c0c0c0c0c0c0c0c0c0c0c0c0c0";
                 CVERecord.CVEState := "public";
                 CVERecord.TriageState := "UpdatedSinceIssueCreation";
                 CVERecord.TriageStateReason := "CVE changed; needs issue = false" |}] |},
      ["CVE-2020-0001"])).
Proof.
  split; [reflexivity|]. split; [reflexivity|].
  exact (proj1 (handleCVE_transition_table threeDirsFullRepo file2020 issueCreatedRecord
                  (hashOf Byte.xc0) (recordingTriage false) (begin emptyStore) []
                  (publicCVE "CVE-2020-0001") false ["CVE-2020-0001"]
                  eq_refl eq_refl)).
Defined.

Lemma handleCVE_not_public_witness :
  blobReader reservedRepo (blobHash file2020) = Ok (Ok reservedCVE) ∧
  cveschema.State reservedCVE ≠ cveschema.StatePublic ∧
  needsAction (recordingTriage true) reservedCVE [] = (Ok false, []) ∧
  (handleCVE reservedRepo file2020 None (hashOf Byte.xc0) (recordingTriage true)
     (begin emptyStore, [])).2.2 = [].
Proof.
  assert (Hs : cveschema.State reservedCVE ≠ cveschema.StatePublic) by discriminate.
  split; [reflexivity|]. split; [exact Hs|].
  pose proof (handleCVE_not_public reservedRepo file2020 None (hashOf Byte.xc0)
                (recordingTriage true) (begin emptyStore) [] reservedCVE eq_refl Hs)
    as (Hneeds & Hts & _).
  split; [exact Hneeds | exact Hts].
Defined.

Lemma repoCVEFiles_sorted_witness :
  repoCVEFiles (commitOf mixedLengths) = Ok [file9999; file10000] ∧
  walkFiles mixedLengths "" [] = Ok [file10000; file9999] ∧
  StronglySorted keyLe [file9999; file10000] ∧
  ∀ (i j : nat) (f g : repoFile),
    [file9999; file10000] !! i = Some f → [file9999; file10000] !! j = Some g →
    keyLt f g → (i < j)%nat.
Proof.
  split; [reflexivity|]. split; [reflexivity|].
  pose proof (repoCVEFiles_sorted (commitOf mixedLengths) [file9999; file10000] eq_refl)
    as (Hs & _ & Hlt).
  split; [exact Hs | exact Hlt].
Defined.

Lemma groupFilesByDirectory_contiguity_witness :
  nonContiguous (map dirPath [file2019; file2020; strayFile]) = true ∧
  (∃ e, groupFilesByDirectory [file2019; file2020; strayFile] = Err e) ∧
  CommitObject strayRepo (hashOf Byte.xc0) = Ok (commitOf strayTree) ∧
  repoCVEFiles (commitOf strayTree) = Ok [file2019; file2020; strayFile] ∧
  (∃ e, doUpdate strayRepo (hashOf Byte.xc0) (recordingTriage true) 10 20 (emptyStore, [])
        = (Returned None (Some e), (emptyStore, []))) ∧
  nonContiguous (map dirPath [file2019; file2020; file2021]) = false ∧
  (∃ groups,
      groupFilesByDirectory [file2019; file2020; file2021] = Ok groups ∧
      concat groups = [file2019; file2020; file2021] ∧
      Forall isRun groups ∧
      NoDup (map groupDir groups)).
Proof.
  split; [reflexivity|].
  pose proof (proj1 (groupFilesByDirectory_contiguity [file2019; file2020; strayFile])
                eq_refl) as [Herr Hstore].
  split; [exact Herr|].
  split; [reflexivity|]. split; [reflexivity|].
  split.
  { exact (Hstore (list string) strayRepo (hashOf Byte.xc0) (recordingTriage true) 10 20
             (emptyStore, []) (commitOf strayTree) eq_refl eq_refl). }
  split; [reflexivity|].
  exact (proj2 (groupFilesByDirectory_contiguity [file2019; file2020; file2021]) eq_refl).
Defined.

Lemma updateDirectory_sentinel_witness :
  default "" (dirHashes emptyStore !! dirPath file2019) ≠ HashString (treeHash file2019) ∧
  ∃ evs,
    Forall isCommitEv evs ∧
    journal (updateDirectory threeDirsFullRepo [file2019] (hashOf Byte.xc0)
               (recordingTriage true) (emptyStore, [])).2.1 =
      [SetDirectoryHashEv "2019" inProgress] ++ evs ++
      [SetDirectoryHashEv "2019" "1919191919191919191919191919191919191919"] ∧
    length evs = 1%nat ∧
    dirHashes (updateDirectory threeDirsFullRepo [file2019] (hashOf Byte.xc0)
                 (recordingTriage true) (emptyStore, [])).2.1 !! "2019" =
      Some "1919191919191919191919191919191919191919".
Proof.
  assert (Hne : default "" (dirHashes emptyStore !! dirPath file2019)
                ≠ HashString (treeHash file2019)) by discriminate.
  split; [exact Hne|].
  exact (proj2 (updateDirectory_sentinel threeDirsFullRepo file2019 [] (hashOf Byte.xc0)
                  (recordingTriage true) emptyStore [] Hne)).
Defined.


Lemma doUpdate_idempotent_witness :
  fullRun = (Returned (Some fullRunRecord) None, fullRun.2) ∧
  CommitUpdateRecord.Error fullRunRecord = "" ∧
  ∃ ur2 s2,
    doUpdate threeDirsFullRepo (hashOf Byte.xc0) (recordingTriage false) 30 40 fullRun.2
      = (Returned (Some ur2) None, s2) ∧
    CommitUpdateRecord.NumProcessed ur2 = 0 ∧
    CommitUpdateRecord.NumAdded ur2 = 0 ∧
    CommitUpdateRecord.NumModified ur2 = 0 ∧
    CommitUpdateRecord.Error ur2 = "" ∧
    cveRecords s2.1 = cveRecords fullRun.2.1 ∧
    dirHashes s2.1 = dirHashes fullRun.2.1 ∧
    s2.2 = fullRun.2.2.
Proof.
  assert (Hrun : doUpdate threeDirsFullRepo (hashOf Byte.xc0) (recordingTriage true) 10 20
                   (emptyStore, []) = (Returned (Some fullRunRecord) None, fullRun.2))
    by (vm_compute; reflexivity).
  split; [exact Hrun|]. split; [reflexivity|].
  exact (doUpdate_idempotent threeDirsFullRepo (hashOf Byte.xc0) (recordingTriage true)
           (recordingTriage false) 10 20 30 40 (emptyStore, []) fullRun.2 fullRunRecord
           Hrun eq_refl).
Defined.

(** * Further properties of the worker *)

(** ** The comparison and the batches *)

(** X1.  The comparison [repoCVEFiles] hands to [sort.Slice] is a strict
    weak ordering, as [sort.Slice] requires: no file is less than itself,
    two files are never each less than the other, being less is transitive,
    and so is being neither less nor greater. *)
Theorem less_strict_weak_order (a b c : repoFile) :
  less a a = false ∧
  (less a b = true → less b a = false) ∧
  (less a b = true → less b c = true → less a c = true) ∧
  (less a b = false → less b a = false →
   less b c = false → less c b = false →
   less a c = false ∧ less c a = false).
Proof.
  rewrite !less_false_keyLe, !less_keyLt. unfold keyLe, keyLt.
  split; [lia|]. split; [lia|]. split.
  - intros [?|[? ?]] [?|[? ?]]; lia.
  - intros [?|[? ?]] [?|[? ?]] [?|[? ?]] [?|[? ?]]; split; lia.
Qed.

Lemma windowsFrom_concat (fuel : nat) (files : list repoFile) :
  (length files <= fuel)%nat → concat (windowsFrom fuel files) = files.
Proof.
  revert files. induction fuel as [|fuel IH]; intros files Hlen.
  - destruct files; [done | simpl in Hlen; lia].
  - destruct files as [|f files]; [done|].
    change (windowsFrom (S fuel) (f :: files))
      with (take batchSize (f :: files) :: windowsFrom fuel (drop batchSize (f :: files))).
    rewrite concat_cons, IH; [apply take_drop|].
    rewrite length_drop. unfold batchSize. cbn [length] in *. lia.
Qed.

Lemma windowsFrom_sizes (fuel : nat) (files : list repoFile) :
  Forall (fun b => (1 <= length b <= batchSize)%nat) (windowsFrom fuel files).
Proof.
  revert files. induction fuel as [|fuel IH]; intros files; [constructor|].
  destruct files as [|f files]; [constructor|].
  change (windowsFrom (S fuel) (f :: files))
    with (take batchSize (f :: files) :: windowsFrom fuel (drop batchSize (f :: files))).
  constructor; [|apply IH].
  rewrite length_take. unfold batchSize. cbn [length]. lia.
Qed.

(** X2.  The batches of [updateDirectory] are the files of the directory
    in order, cut into slices of at least one and at most 500 files: no
    file is left out or taken twice, and the last slice is the only one
    that can hold fewer than 500. *)
Theorem windows_partition (dirFiles : list repoFile) :
  concat (windows dirFiles) = dirFiles ∧
  Forall (fun b => (1 <= length b <= batchSize)%nat) (windows dirFiles) ∧
  ∀ (i : nat) (b : list repoFile),
    windows dirFiles !! i = Some b → (S i < length (windows dirFiles))%nat →
    length b = batchSize.
Proof.
  split; [by apply windowsFrom_concat|]. split; [apply windowsFrom_sizes|].
  unfold windows. generalize (length dirFiles) as fuel. intros fuel.
  revert dirFiles. induction fuel as [|fuel IH]; intros files i b Hb Hi.
  - simpl in Hi. lia.
  - destruct files as [|f files]; [simpl in Hi; lia|].
    change (windowsFrom (S fuel) (f :: files))
      with (take batchSize (f :: files) :: windowsFrom fuel (drop batchSize (f :: files)))
      in Hb, Hi.
    set (t := take batchSize (f :: files)) in *.
    set (d := drop batchSize (f :: files)) in *.
    destruct i as [|i].
    + change (Some t = Some b) in Hb. injection Hb as <-. subst t.
      rewrite length_take. apply Nat.min_l.
      destruct (decide (batchSize <= length (f :: files))%nat) as [|Hn]; [done|].
      exfalso. assert (Hd : d = []) by (subst d; apply drop_ge; lia).
      rewrite Hd in Hi. cbn [length] in Hi.
      replace (windowsFrom fuel []) with (@nil (list repoFile)) in Hi
        by (destruct fuel; reflexivity).
      cbn [length] in Hi. lia.
    + change (windowsFrom fuel d !! i = Some b) in Hb. cbn [length] in Hi.
      eapply IH; [exact Hb | lia].
Qed.

(** ** One file, in full *)

Lemma needsAction_step {T : Type} (needsIssue : triageFunc T) (cve : cveschema.CVE)
  (tx : Transaction) (ts : T) :
  (if String.eqb (cveschema.State cve) cveschema.StatePublic
   then callTriage needsIssue cve else ret false) (tx, ts)
  = ((needsAction needsIssue cve ts).1, (tx, (needsAction needsIssue cve ts).2)).
Proof.
  unfold needsAction, callTriage, ret.
  destruct (String.eqb _ _); [|reflexivity].
  simpl. by destruct (needsIssue cve ts).
Qed.

(** Before its write, [handleCVE] touches nothing of the transaction. *)
Lemma handleCVE_outcome {T : Type} (repo : Repository) (f : repoFile)
  (old : option CVERecord.t) (commitHash : Hash) (needsIssue : triageFunc T)
  (tx : Transaction) (ts : T) :
  (∃ cve needs ts1,
      blobReader repo (blobHash f) = Ok (Ok cve) ∧
      needsAction needsIssue cve ts = (Ok needs, ts1)) ∨
  (∃ ts1, (∀ b, (handleCVE repo f old commitHash needsIssue (tx, ts)).1 ≠ Ok b) ∧
          (handleCVE repo f old commitHash needsIssue (tx, ts)).2 = (tx, ts1)).
Proof.
  destruct (blobReader repo (blobHash f)) as [[cve|e|p]|e|p] eqn:Hb.
  - destruct (needsAction needsIssue cve ts) as [[needs|e|p] ts1] eqn:Hn.
    + left. eauto.
    + right. exists ts1. unfold handleCVE, wrapM, bind, fromRes.
      rewrite Hb, needsAction_step, Hn. simpl. by split.
    + right. exists ts1. unfold handleCVE, wrapM, bind, fromRes.
      rewrite Hb, needsAction_step, Hn. simpl. by split.
  - right. exists ts. unfold handleCVE, wrapM, bind, fromRes. rewrite Hb. simpl. by split.
  - right. exists ts. unfold handleCVE, wrapM, bind, fromRes. rewrite Hb. simpl. by split.
  - right. exists ts. unfold handleCVE, wrapM, bind, fromRes. rewrite Hb. simpl. by split.
  - right. exists ts. unfold handleCVE, wrapM, bind, fromRes. rewrite Hb. simpl. by split.
Qed.

(** X3.  [handleCVE] buffers exactly one write when it succeeds and none
    when it fails.  The write is a create, reported as an add, exactly when
    there is no stored record, and a set of the stored record's ID
    otherwise; either way the record written carries the path, the hash and
    the commit hash of the file at hand. *)
Theorem handleCVE_writes_once {T : Type} (repo : Repository) (f : repoFile)
  (old : option CVERecord.t) (commitHash : Hash) (needsIssue : triageFunc T)
  (tx : Transaction) (ts : T) :
  match handleCVE repo f old commitHash needsIssue (tx, ts) with
  | (Ok added, (tx', _)) =>
      snapshot tx' = snapshot tx ∧
      (added = true ↔ old = None) ∧
      ∃ r, writes tx' = writes tx ++ [if added then CreateCVE r else SetCVE r] ∧
           CVERecord.Path r = pathJoin (dirPath f) (filename f) ∧
           CVERecord.BlobHash r = HashString (blobHash f) ∧
           CVERecord.CommitHash r = HashString commitHash ∧
           ∀ o, old = Some o → CVERecord.ID r = CVERecord.ID o
  | (_, (tx', _)) => tx' = tx
  end.
Proof.
  destruct (handleCVE_outcome repo f old commitHash needsIssue tx ts)
    as [(cve & needs & ts1 & Hb & Hn)|(ts1 & Hne & Hst)].
  - rewrite (handleCVE_decoded repo f old commitHash needsIssue tx ts cve needs ts1 Hb Hn).
    destruct old as [o|].
    + rewrite triageTransition_table by reflexivity.
      destruct (transitionTable (CVERecord.TriageState o) needs) as [[state reason]|];
        [|reflexivity].
      split; [reflexivity|]. split; [done|].
      eexists. split; [reflexivity|]. repeat split. by intros o' [= <-].
    + split; [reflexivity|]. split; [done|].
      eexists. split; [reflexivity|]. repeat split. done.
  - destruct (handleCVE repo f old commitHash needsIssue (tx, ts)) as [[b|e|p] [tx' ts']];
      simpl in *.
    + by destruct (Hne b).
    + congruence.
    + congruence.
Qed.

(** X4.  The triage state [handleCVE] writes is never "IssueCreated" and
    never a state outside the four: a new record gets "NeedsIssue" when the
    triage function answers yes for a public document and "NoActionNeeded"
    otherwise; a stored record keeps or gets one of these two unless an
    issue was created for it, and then it gets
    "UpdatedSinceIssueCreation". *)
Theorem handleCVE_written_state {T : Type} (repo : Repository) (f : repoFile)
  (old : option CVERecord.t) (commitHash : Hash) (needsIssue : triageFunc T)
  (tx : Transaction) (ts : T) :
  match handleCVE repo f old commitHash needsIssue (tx, ts) with
  | (Ok _, (tx', _)) =>
      ∃ w, writes tx' = writes tx ++ [w] ∧
           CVERecord.TriageState (written w) ≠ TriageStateIssueCreated ∧
           (CVERecord.TriageState (written w) = TriageStateNoActionNeeded ∨
            CVERecord.TriageState (written w) = TriageStateNeedsIssue ∨
            (CVERecord.TriageState (written w) = TriageStateUpdatedSinceIssueCreation ∧
             ∃ o, old = Some o ∧
                  (CVERecord.TriageState o = TriageStateIssueCreated ∨
                   CVERecord.TriageState o = TriageStateUpdatedSinceIssueCreation)))
  | _ => True
  end.
Proof.
  destruct (handleCVE_outcome repo f old commitHash needsIssue tx ts)
    as [(cve & needs & ts1 & Hb & Hn)|(ts1 & Hne & Hst)].
  - rewrite (handleCVE_decoded repo f old commitHash needsIssue tx ts cve needs ts1 Hb Hn).
    destruct old as [o|].
    + rewrite triageTransition_table by reflexivity.
      unfold transitionTable.
      destruct (String.eqb_spec (CVERecord.TriageState o) "NoActionNeeded") as [H1|_].
      { eexists. split; [reflexivity|]. simpl. destruct needs; split; try done; auto. }
      destruct (String.eqb_spec (CVERecord.TriageState o) "NeedsIssue") as [H2|_].
      { eexists. split; [reflexivity|]. simpl. destruct needs; split; try done; auto. }
      destruct (String.eqb_spec (CVERecord.TriageState o) "IssueCreated") as [H3|_].
      { eexists. split; [reflexivity|]. simpl. split; [done|]. right. right.
        split; [done|]. exists o. auto. }
      destruct (String.eqb_spec (CVERecord.TriageState o) "UpdatedSinceIssueCreation")
        as [H4|_]; [|done].
      eexists. split; [reflexivity|]. simpl. split; [done|]. right. right.
      split; [done|]. exists o. auto.
    + eexists. split; [reflexivity|]. simpl. destruct needs; split; try done; auto.
  - destruct (handleCVE repo f old commitHash needsIssue (tx, ts)) as [[b|e|p] [tx' ts']];
      simpl in *; try done.
    by destruct (Hne b).
Qed.

(** ** One batch, in full *)

Lemma handleCVE_write_kind {T : Type} (repo : Repository) (f : repoFile)
  (old : option CVERecord.t) (commitHash : Hash) (needsIssue : triageFunc T)
  (tx : Transaction) (ts : T) :
  match handleCVE repo f old commitHash needsIssue (tx, ts) with
  | (Ok added, (tx', _)) =>
      snapshot tx' = snapshot tx ∧
      ∃ r, writes tx' = writes tx ++ [if added then CreateCVE r else SetCVE r]
  | (_, (tx', _)) => tx' = tx
  end.
Proof.
  destruct (handleCVE_outcome repo f old commitHash needsIssue tx ts)
    as [(cve & needs & ts1 & Hb & Hn)|(ts1 & Hne & Hst)].
  - rewrite (handleCVE_decoded repo f old commitHash needsIssue tx ts cve needs ts1 Hb Hn).
    destruct old as [o|]; [|split; [reflexivity | by eexists]].
    destruct (triageTransition o needs _); [|reflexivity..].
    split; [reflexivity | by eexists].
  - destruct (handleCVE repo f old commitHash needsIssue (tx, ts)) as [[b|e|p] [tx' ts']];
      simpl in *; [by destruct (Hne b) | congruence | congruence].
Qed.

Lemma creates_app (ws1 ws2 : list Write) : creates (ws1 ++ ws2) = creates ws1 + creates ws2.
Proof. unfold creates. rewrite List.filter_app, length_app. lia. Qed.

Lemma sets_app (ws1 ws2 : list Write) : sets (ws1 ++ ws2) = sets ws1 + sets ws2.
Proof. unfold sets. rewrite List.filter_app, length_app. lia. Qed.

(** The loop of a batch adds one to [numAdds] for each create it buffers
    and one to [numMods] for each set; it buffers one write per file at
    most. *)
Lemma batchLoop_counts {T : Type} (repo : Repository) (commitHash : Hash)
  (needsIssue : triageFunc T) (idToRecord : gmap string CVERecord.t)
  (batch : list repoFile) :
  ∀ (numAdds numMods : Z) (tx : Transaction) (ts : T),
    match batchLoop repo commitHash needsIssue idToRecord batch numAdds numMods (tx, ts) with
    | (Ok (adds, mods), (tx', _)) =>
        snapshot tx' = snapshot tx ∧
        ∃ ws, writes tx' = writes tx ++ ws ∧
              adds = numAdds + creates ws ∧
              mods = numMods + sets ws ∧
              (length ws <= length batch)%nat
    | _ => True
    end.
Proof.
  induction batch as [|f batch IH]; intros numAdds numMods tx ts.
  - simpl. split; [done|]. exists []. rewrite app_nil_r. unfold creates, sets. simpl.
    repeat split; lia.
  - simpl. destruct (unchanged _ f).
    + specialize (IH numAdds numMods tx ts).
      destruct (batchLoop _ _ _ _ _ _ _ _) as [[[adds mods]|e|p] [tx' ts']]; [|done..].
      destruct IH as (Hs & ws & Hw & Ha & Hm & Hl). split; [done|].
      exists ws. repeat split; try done. lia.
    + unfold bind.
      pose proof (handleCVE_write_kind repo f (idToRecord !! idFromFilename (filename f))
                    commitHash needsIssue tx ts) as Hh.
      destruct (handleCVE _ _ _ _ _ _) as [[added|e|p] [tx1 ts1]]; [|done..].
      destruct Hh as (Hs1 & r & Hw1).
      destruct added.
      * specialize (IH (numAdds + 1) numMods tx1 ts1).
        destruct (batchLoop _ _ _ _ _ _ _ _) as [[[adds mods]|e|p] [tx' ts']]; [|done..].
        destruct IH as (Hs & ws & Hw & Ha & Hm & Hl). split; [congruence|].
        exists (CreateCVE r :: ws). rewrite Hw, Hw1, <- app_assoc.
        split; [done|].
        change (CreateCVE r :: ws) with ([CreateCVE r] ++ ws).
        rewrite creates_app, sets_app. unfold creates at 1, sets at 1. simpl.
        repeat split; lia.
      * specialize (IH numAdds (numMods + 1) tx1 ts1).
        destruct (batchLoop _ _ _ _ _ _ _ _) as [[[adds mods]|e|p] [tx' ts']]; [|done..].
        destruct IH as (Hs & ws & Hw & Ha & Hm & Hl). split; [congruence|].
        exists (SetCVE r :: ws). rewrite Hw, Hw1, <- app_assoc.
        split; [done|].
        change (SetCVE r :: ws) with ([SetCVE r] ++ ws).
        rewrite creates_app, sets_app. unfold creates at 1, sets at 1. simpl.
        repeat split; lia.
Qed.

(** What [updateBatch] does to the store, whatever the outcome. *)
Lemma updateBatch_outcome {T : Type} (repo : Repository) (batch : list repoFile)
  (commitHash : Hash) (needsIssue : triageFunc T) (st : MemStore) (ts : T) :
  match updateBatch repo batch commitHash needsIssue (st, ts) with
  | (Ok (adds, mods), (st', _)) =>
      ∃ ws, st' = commit {| snapshot := cveRecords st; writes := ws |} st ∧
            adds = creates ws ∧ mods = sets ws ∧
            (length ws <= length batch)%nat
  | (_, (st', _)) => st' = st ∨ st' = abort st
  end.
Proof.
  unfold updateBatch. destruct batch as [|first batch']; [by left|].
  destruct (last (first :: batch')) as [final|]; [|by left].
  unfold wrapM, RunTransaction, batchTransaction, bind, onFst, GetCVERecords.
  cbn [fst snd].
  set (idx := indexByID _).
  pose proof (batchLoop_counts repo commitHash needsIssue idx (first :: batch') 0 0
                (begin st) ts) as Hc.
  destruct (batchLoop _ _ _ _ _ _ _ _) as [[[adds mods]|e|p] [tx' ts']];
    [|by right..].
  destruct Hc as (Hs & ws & Hw & Ha & Hm & Hl). simpl.
  exists ws. split; [|repeat split; (done || lia)].
  destruct tx' as [sn wr]. simpl in *. by subst.
Qed.

Lemma creates_sets_length (ws : list Write) : creates ws + sets ws = Z.of_nat (length ws).
Proof.
  unfold creates, sets. induction ws as [|[r|r] ws IH]; simpl; lia.
Qed.

(** X5.  What a batch reports is what its transaction wrote: on success
    [updateBatch] returns the number of creates and the number of sets of
    the one transaction it committed, which together are at most the number
    of files of the batch, and the stored records are the old ones with
    these writes applied; on failure the stored records, the markers and
    the run records are what they were. *)
Theorem updateBatch_counts_writes {T : Type} (repo : Repository) (batch : list repoFile)
  (commitHash : Hash) (needsIssue : triageFunc T) (st : MemStore) (ts : T) :
  match updateBatch repo batch commitHash needsIssue (st, ts) with
  | (Ok (adds, mods), (st', _)) =>
      ∃ ws, journal st' = journal st ++ [CommitEv ws] ∧
            cveRecords st' = applyWrites ws (cveRecords st) ∧
            adds = creates ws ∧ mods = sets ws ∧
            0 <= adds ∧ 0 <= mods ∧
            adds + mods = Z.of_nat (length ws) ∧
            adds + mods <= Z.of_nat (length batch)
  | (_, (st', _)) =>
      cveRecords st' = cveRecords st ∧ dirHashes st' = dirHashes st ∧
      updateRecords st' = updateRecords st
  end.
Proof.
  pose proof (updateBatch_outcome repo batch commitHash needsIssue st ts) as H.
  destruct (updateBatch repo batch commitHash needsIssue (st, ts))
    as [[[adds mods]|e|p] [st' ts']].
  - destruct H as (ws & -> & -> & -> & Hl). exists ws.
    pose proof (creates_sets_length ws) as Hcs.
    repeat split; try done; unfold creates, sets in *; lia.
  - by destruct H as [->| ->].
  - by destruct H as [->| ->].
Qed.

(** ** One directory, in full *)

Lemma directoryLoop_outcome {T : Type} (repo : Repository) (commitHash : Hash)
  (needsIssue : triageFunc T) (k : nat) (batches : list (list repoFile)) :
  Forall (fun b => (length b <= k)%nat) batches →
  ∀ (numProc numAdds numMods : Z) (st : MemStore) (ts : T),
    match directoryLoop repo commitHash needsIssue batches numProc numAdds numMods (st, ts) with
    | (r, (st', _)) =>
        (∃ evs, journal st' = journal st ++ evs ∧
                ∀ ws, CommitEv ws ∈ evs → (length ws <= k)%nat) ∧
        match r with
        | Ok (p, a, m) =>
            p = numProc + Z.of_nat (length (concat batches)) ∧
            numAdds <= a ∧ numMods <= m ∧
            (a - numAdds) + (m - numMods) <= Z.of_nat (length (concat batches))
        | _ => True
        end
    end.
Proof.
  induction 1 as [|batch batches Hb Hbs IH]; intros numProc numAdds numMods st ts.
  - simpl. split; [|lia]. exists []. rewrite app_nil_r. split; [done|].
    intros ws Hws. inversion Hws.
  - simpl. unfold bind.
    pose proof (updateBatch_outcome repo batch commitHash needsIssue st ts) as Hu.
    destruct (updateBatch repo batch commitHash needsIssue (st, ts))
      as [[[adds mods]|e|p] [st1 ts1]].
    + destruct Hu as (ws & -> & -> & -> & Hl).
      specialize (IH (numProc + Z.of_nat (length batch)) (numAdds + creates ws)
                    (numMods + sets ws)
                    (commit {| snapshot := cveRecords st; writes := ws |} st) ts1).
      simpl fst. simpl snd.
      destruct (directoryLoop _ _ _ _ _ _ _ _) as [r [st2 ts2]].
      destruct IH as [(evs & Hj & Hk) Hr]. split.
      * exists (CommitEv ws :: evs). rewrite Hj. simpl. rewrite <- app_assoc.
        split; [done|]. intros ws' [[= ->]|Hin]%elem_of_cons; [lia | auto].
      * destruct r as [[[p' a'] m']|e|p]; [|done..].
        pose proof (creates_sets_length ws) as Hcs.
        rewrite length_app.
        assert (0 <= creates ws) by (unfold creates; lia).
        assert (0 <= sets ws) by (unfold sets; lia).
        lia.
    + split; [|done]. destruct Hu as [->| ->].
      * exists []. rewrite app_nil_r. split; [done|]. intros ws Hws. inversion Hws.
      * exists [AbortEv]. split; [done|].
        intros ws [?|Hws]%elem_of_cons; [done | inversion Hws].
    + split; [|done]. destruct Hu as [->| ->].
      * exists []. rewrite app_nil_r. split; [done|]. intros ws Hws. inversion Hws.
      * exists [AbortEv]. split; [done|].
        intros ws [?|Hws]%elem_of_cons; [done | inversion Hws].
Qed.

Lemma windows_sizes_le (dirFiles : list repoFile) :
  Forall (fun b => (length b <= batchSize)%nat) (windows dirFiles).
Proof.
  eapply Forall_impl; [apply windowsFrom_sizes|]. intros b Hb. simpl in Hb. lia.
Qed.

(** [updateDirectory] on a directory that is not skipped: the outcome of
    the batch loop, between the two writes of the marker. *)
Lemma updateDirectory_outcome {T : Type} (repo : Repository) (d0 : repoFile)
  (rest : list repoFile) (commitHash : Hash) (needsIssue : triageFunc T)
  (st : MemStore) (ts : T) :
  HashString (treeHash d0) ≠ default "" (dirHashes st !! dirPath d0) →
  match updateDirectory repo (d0 :: rest) commitHash needsIssue (st, ts) with
  | (r, (st', _)) =>
      (∃ evs, journal st' = journal st ++ SetDirectoryHashEv (dirPath d0) inProgress :: evs ∧
              ∀ ws, CommitEv ws ∈ evs → (length ws <= batchSize)%nat) ∧
      match r with
      | Ok (p, a, m) =>
          p = Z.of_nat (length (d0 :: rest)) ∧ 0 <= a ∧ 0 <= m ∧ a + m <= p
      | _ => True
      end
  end.
Proof.
  intros Hne. rewrite updateDirectory_unfold.
  destruct (String.eqb_spec (HashString (treeHash d0))
              (default "" (dirHashes st !! dirPath d0))) as [?|_]; [done|].
  pose proof (directoryLoop_outcome repo commitHash needsIssue batchSize
                (windows (d0 :: rest)) (windows_sizes_le _) 0 0 0
                (SetDirectoryHash (dirPath d0) inProgress st).2 ts) as Hl.
  destruct (directoryLoop _ _ _ _ _ _ _ _) as [r [st2 ts2]].
  destruct Hl as [(evs & Hj & Hk) Hr].
  assert (Hc : concat (windows (d0 :: rest)) = d0 :: rest)
    by (by apply windowsFrom_concat).
  rewrite Hc in Hr. cbv [SetDirectoryHash snd] in Hj. simpl journal in Hj.
  destruct r as [[[p a] m]|e|p].
  - split.
    + exists (evs ++ [SetDirectoryHashEv (dirPath d0) (HashString (treeHash d0))]).
      cbv [SetDirectoryHash snd]. simpl journal. rewrite Hj, <- !app_assoc.
      split; [done|].
      intros ws [Hin|Hin]%elem_of_app; [auto|].
      by apply list_elem_of_singleton in Hin.
    + lia.
  - split; [|done]. exists evs. rewrite Hj, <- app_assoc. done.
  - split; [|done]. exists evs. rewrite Hj, <- app_assoc. done.
Qed.

(** X6.  What a directory reports: when [updateDirectory] succeeds, either
    the marker was the hash of the directory, the directory was skipped and
    the store and the state of the triage function are untouched, with all
    three counts zero; or the marker differed, every file of the directory
    was processed, and the adds and the modifications are non-negative and
    together at most the number of files. *)
Theorem updateDirectory_counts {T : Type} (repo : Repository) (g : list repoFile)
  (commitHash : Hash) (needsIssue : triageFunc T) (s s1 : MemStore * T)
  (p a m : Z) :
  updateDirectory repo g commitHash needsIssue s = (Ok (p, a, m), s1) →
  (marked s.1 g ∧ p = 0 ∧ a = 0 ∧ m = 0 ∧ s1 = s) ∨
  (¬ marked s.1 g ∧ p = Z.of_nat (length g) ∧ 0 <= a ∧ 0 <= m ∧ a + m <= p).
Proof.
  destruct g as [|d0 rest]; [discriminate|]. destruct s as [st ts]. intros H.
  destruct (decide (HashString (treeHash d0) = default "" (dirHashes st !! dirPath d0)))
    as [He|Hne].
  - left. rewrite updateDirectory_unfold, He, String.eqb_refl in H.
    injection H as <- <- <- <-. by repeat split.
  - right. pose proof (updateDirectory_outcome repo d0 rest commitHash needsIssue st ts Hne)
      as Ho.
    rewrite H in Ho. destruct s1 as [st1 ts1]. destruct Ho as [_ Ho].
    split; [|exact Ho]. simpl. congruence.
Qed.

(** X7.  No transaction of [updateDirectory] writes more than 500 records,
    the limit of the store: whatever the outcome, the directory adds to the
    journal of the store only events whose commits hold at most 500 writes
    each. *)
Theorem updateDirectory_transaction_size {T : Type} (repo : Repository)
  (g : list repoFile) (commitHash : Hash) (needsIssue : triageFunc T)
  (st : MemStore) (ts : T) :
  ∃ evs,
    journal (updateDirectory repo g commitHash needsIssue (st, ts)).2.1 = journal st ++ evs ∧
    ∀ ws, CommitEv ws ∈ evs → (length ws <= 500)%nat.
Proof.
  destruct g as [|d0 rest].
  { exists []. simpl. rewrite app_nil_r. split; [done|]. intros ws Hws. inversion Hws. }
  destruct (decide (HashString (treeHash d0) = default "" (dirHashes st !! dirPath d0)))
    as [He|Hne].
  - rewrite updateDirectory_unfold, He, String.eqb_refl. simpl.
    exists []. rewrite app_nil_r. split; [done|]. intros ws Hws. inversion Hws.
  - pose proof (updateDirectory_outcome repo d0 rest commitHash needsIssue st ts Hne) as Ho.
    destruct (updateDirectory _ _ _ _ _) as [r [st' ts']].
    destruct Ho as [(evs & Hj & Hk) _].
    exists (SetDirectoryHashEv (dirPath d0) inProgress :: evs). simpl. split; [done|].
    intros ws [?|Hin]%elem_of_cons; [done|]. by apply Hk.
Qed.

(** X8.  A directory that [updateDirectory] has processed without error is
    skipped the next time: a second call on the same files, from the state
    the first one left, returns three zeros and changes nothing, whatever
    triage function it is given. *)
Theorem updateDirectory_twice {T : Type} (repo : Repository) (g : list repoFile)
  (commitHash : Hash) (needsIssue needsAgain : triageFunc T) (s s1 : MemStore * T)
  (c : Z * Z * Z) :
  updateDirectory repo g commitHash needsIssue s = (Ok c, s1) →
  updateDirectory repo g commitHash needsAgain s1 = (Ok (0, 0, 0), s1).
Proof.
  intros H. apply updateDirectory_marked.
  by apply updateDirectory_Ok_marked in H as [Hm _].
Qed.


(** ** The run record *)

Lemma updateDirectory_Ok_bounds {T : Type} (repo : Repository) (g : list repoFile)
  (commitHash : Hash) (needsIssue : triageFunc T) (s s1 : MemStore * T) (p a m : Z) :
  updateDirectory repo g commitHash needsIssue s = (Ok (p, a, m), s1) →
  0 <= p <= Z.of_nat (length g) ∧ 0 <= a ∧ 0 <= m ∧ a + m <= p.
Proof.
  destruct g as [|d0 rest]; [discriminate|]. destruct s as [st ts]. intros H.
  destruct (decide (HashString (treeHash d0) = default "" (dirHashes st !! dirPath d0)))
    as [He|Hne].
  - rewrite updateDirectory_unfold, He, String.eqb_refl in H.
    injection H as <- <- <- _. lia.
  - pose proof (updateDirectory_outcome repo d0 rest commitHash needsIssue st ts Hne) as Ho.
    rewrite H in Ho. destruct s1 as [st1 ts1]. destruct Ho as [_ Ho]. lia.
Qed.

Lemma totalFiles_cons (g : list repoFile) (dirs : list (list repoFile)) :
  totalFiles (g :: dirs) = Z.of_nat (length g) + totalFiles dirs.
Proof. unfold totalFiles. rewrite concat_cons, length_app. lia. Qed.

(** The loop over the directories only adds to the counts of the run
    record, never more files than the directories hold, and leaves the
    other fields but the error and the end time alone. *)
Lemma directoriesLoop_counts {T : Type} (repo : Repository) (commitHash : Hash)
  (needsIssue : triageFunc T) (endedAt : Z) (dirs : list (list repoFile)) :
  ∀ (ur : CommitUpdateRecord.t) (s : MemStore * T),
    match directoriesLoop repo commitHash needsIssue endedAt dirs ur s with
    | (Returned ur' _, _) =>
        ∃ u, ur' = Some u ∧
             CommitUpdateRecord.StartedAt u = CommitUpdateRecord.StartedAt ur ∧
             CommitUpdateRecord.CommitTime u = CommitUpdateRecord.CommitTime ur ∧
             CommitUpdateRecord.NumTotal u = CommitUpdateRecord.NumTotal ur ∧
             CommitUpdateRecord.NumProcessed ur <= CommitUpdateRecord.NumProcessed u
               <= CommitUpdateRecord.NumProcessed ur + totalFiles dirs ∧
             CommitUpdateRecord.NumAdded ur <= CommitUpdateRecord.NumAdded u ∧
             CommitUpdateRecord.NumModified ur <= CommitUpdateRecord.NumModified u ∧
             (CommitUpdateRecord.NumAdded u - CommitUpdateRecord.NumAdded ur)
             + (CommitUpdateRecord.NumModified u - CommitUpdateRecord.NumModified ur)
             <= CommitUpdateRecord.NumProcessed u - CommitUpdateRecord.NumProcessed ur
    | (Panicked _, _) => True
    end.
Proof.
  induction dirs as [|g dirs IH]; intros ur s.
  - rewrite directoriesLoop_nil. eexists. split; [reflexivity|].
    unfold totalFiles. simpl. repeat split; lia.
  - destruct (updateDirectory repo g commitHash needsIssue s)
      as [[[[p a] m]|e|msg] s1] eqn:Hd.
    + rewrite (directoriesLoop_Ok _ _ _ _ _ _ _ _ _ _ _ _ Hd).
      apply updateDirectory_Ok_bounds in Hd.
      specialize (IH (CommitUpdateRecord.addCounts p a m ur)
                    (recorded (CommitUpdateRecord.addCounts p a m ur) s1)).
      destruct (directoriesLoop _ _ _ _ _ _ _) as [[ur' err|msg] s']; [|done].
      destruct IH as (u & -> & H1 & H2 & H3 & H4 & H5 & H6 & H7). exists u.
      rewrite totalFiles_cons. destruct ur. simpl in *. repeat split; (done || lia).
    + rewrite (directoriesLoop_Err _ _ _ _ _ _ _ _ _ _ Hd).
      specialize (IH (CommitUpdateRecord.setError e ur)
                    (recorded (CommitUpdateRecord.setError e ur)
                       (recorded (CommitUpdateRecord.setError e ur) s1))).
      destruct (directoriesLoop _ _ _ _ _ _ _) as [[ur' err|msg] s']; [|done].
      destruct IH as (u & -> & H1 & H2 & H3 & H4 & H5 & H6 & H7). exists u.
      rewrite totalFiles_cons. destruct ur. simpl in *. repeat split; (done || lia).
    + simpl. rewrite Hd. done.
Qed.

Lemma groupFilesByDirectory_concat (files : list repoFile) (groups : list (list repoFile)) :
  groupFilesByDirectory files = Ok groups → concat groups = files.
Proof.
  rewrite groupFilesByDirectory_runs.
  destruct (checkSeen (runsFrom [] files) ∅) as [[]|e|p]; simpl; try discriminate.
  intros [= <-]. apply runsFrom_concat.
Qed.

(** X10.  A run record that [doUpdate] returns describes the run: it has
    the start and end times the run read, the hash and the time of the
    commit, the number of CVE files of the commit as its total, and counts
    that are consistent (added and modified are non-negative and together at
    most the processed, which are at most the total); and it is the record
    the store holds for the commit. *)
Theorem doUpdate_run_record {T : Type} (repo : Repository) (commitHash : Hash)
  (needsIssue : triageFunc T) (startedAt endedAt : Z) (s s1 : MemStore * T)
  (ur : CommitUpdateRecord.t) (err : option string) :
  doUpdate repo commitHash needsIssue startedAt endedAt s = (Returned (Some ur) err, s1) →
  err = None ∧
  CommitUpdateRecord.StartedAt ur = startedAt ∧
  CommitUpdateRecord.EndedAt ur = endedAt ∧
  CommitUpdateRecord.CommitHash ur = HashString commitHash ∧
  (∃ commit files,
      CommitObject repo commitHash = Ok commit ∧
      repoCVEFiles commit = Ok files ∧
      CommitUpdateRecord.CommitTime ur = CommitterWhen commit ∧
      CommitUpdateRecord.NumTotal ur = Z.of_nat (length files)) ∧
  0 <= CommitUpdateRecord.NumAdded ur ∧
  0 <= CommitUpdateRecord.NumModified ur ∧
  CommitUpdateRecord.NumAdded ur + CommitUpdateRecord.NumModified ur
    <= CommitUpdateRecord.NumProcessed ur ∧
  CommitUpdateRecord.NumProcessed ur <= CommitUpdateRecord.NumTotal ur ∧
  updateRecords s1.1 !! HashString commitHash = Some ur.
Proof.
  unfold doUpdate.
  destruct (CommitObject repo commitHash) as [commit|e|p] eqn:Hc; [|discriminate..].
  destruct (repoCVEFiles commit) as [files|e|p] eqn:Hf; [|discriminate..].
  destruct (groupFilesByDirectory files) as [groups|e|p] eqn:Hg; [|discriminate..].
  cbv [onFst CreateCommitUpdateRecord]. simpl fst at 1. simpl snd at 1.
  fold (initialRecord commitHash commit files startedAt).
  set (ur0 := initialRecord commitHash commit files startedAt).
  set (s0 := (_, s.2)).
  pose proof (directoriesLoop_returns repo commitHash needsIssue endedAt groups ur0 s0)
    as Hr.
  pose proof (directoriesLoop_counts repo commitHash needsIssue endedAt groups ur0 s0)
    as Hn.
  destruct (directoriesLoop _ _ _ _ _ _ _) as [[ur' err'|msg] s']; [|discriminate].
  destruct Hr as (u & -> & -> & He & Hh & _ & Hu).
  destruct Hn as (u' & [= <-] & H1 & H2 & H3 & H4 & H5 & H6 & H7).
  simpl. intros [= <- <- <-].
  apply groupFilesByDirectory_concat in Hg.
  unfold totalFiles in H4. rewrite Hg in H4.
  subst ur0. simpl in *.
  split; [done|]. split; [done|]. split; [done|]. split; [done|].
  split; [by exists commit, files|].
  rewrite <- Hh. repeat split; (done || lia).
Qed.

(** X11.  [doUpdate] returns no run record only when it fails before it
    creates one, that is when the commit cannot be read, the files cannot
    be walked, or the directories are not contiguous; it then returns the
    error of that step under the name of the run, and leaves the store and
    the state of the triage function untouched. *)
Theorem doUpdate_nil_record {T : Type} (repo : Repository) (commitHash : Hash)
  (needsIssue : triageFunc T) (startedAt endedAt : Z) (s s1 : MemStore * T)
  (err : option string) :
  doUpdate repo commitHash needsIssue startedAt endedAt s = (Returned None err, s1) →
  s1 = s ∧
  ∃ e, err = Some (("doUpdate(" +:+ HashString commitHash +:+ ")") +:+ ": " +:+ e) ∧
       (CommitObject repo commitHash = Err e ∨
        ∃ commit, CommitObject repo commitHash = Ok commit ∧
                  (repoCVEFiles commit = Err e ∨
                   ∃ files, repoCVEFiles commit = Ok files ∧
                            groupFilesByDirectory files = Err e)).
Proof.
  unfold doUpdate.
  destruct (CommitObject repo commitHash) as [commit|e|p] eqn:Hc; simpl;
    [|intros [= <- <-]; eauto | discriminate].
  destruct (repoCVEFiles commit) as [files|e|p] eqn:Hf; simpl;
    [|intros [= <- <-]; split; [done|]; exists e; eauto 6 | discriminate].
  destruct (groupFilesByDirectory files) as [groups|e|p] eqn:Hg; simpl;
    [|intros [= <- <-]; split; [done|]; exists e; eauto 8 | discriminate].
  cbv [onFst CreateCommitUpdateRecord].
  match goal with
  | |- context [directoriesLoop repo commitHash needsIssue endedAt groups ?u ?s0] =>
      pose proof (directoriesLoop_returns repo commitHash needsIssue endedAt groups u s0)
        as Hr;
      destruct (directoriesLoop repo commitHash needsIssue endedAt groups u s0)
        as [[ur' err'|msg] s']
  end; [|discriminate].
  destruct Hr as (u & -> & -> & _). discriminate.
Qed.

(** ** A batch with nothing to do *)

Lemma keyedByID_spec (m : gmap string CVERecord.t) :
  keyedByID m = true → ∀ k c, m !! k = Some c → CVERecord.ID c = k.
Proof.
  unfold keyedByID. rewrite forallb_forall. intros H k c Hkc.
  apply String.eqb_eq.
  apply (H (k, c)). apply list_elem_of_In. by apply elem_of_map_to_list.
Qed.

Lemma batchLoop_all_unchanged {T : Type} (repo : Repository) (commitHash : Hash)
  (needsIssue : triageFunc T) (idToRecord : gmap string CVERecord.t)
  (batch : list repoFile) (numAdds numMods : Z) (s : Transaction * T) :
  Forall (fun f => unchanged (idToRecord !! idFromFilename (filename f)) f = true) batch →
  batchLoop repo commitHash needsIssue idToRecord batch numAdds numMods s
  = (Ok (numAdds, numMods), s).
Proof.
  induction 1 as [|f batch Hf Hb IH]; simpl; [done|]. by rewrite Hf.
Qed.

(** X12.  A batch with nothing changed writes nothing.  On a store whose
    records are kept under their IDs, when every file of the batch has its
    ID between the IDs of the first and the last file in the order of
    strings, and a stored record with the hash of the file, [updateBatch]
    commits an empty transaction: it reports no add and no modification,
    leaves the stored records as they are, and does not call the triage
    function. *)
Theorem updateBatch_all_unchanged {T : Type} (repo : Repository) (batch : list repoFile)
  (first final : repoFile) (commitHash : Hash) (needsIssue : triageFunc T)
  (st : MemStore) (ts : T) :
  keyedByID (cveRecords st) = true →
  head batch = Some first →
  last batch = Some final →
  allUnchanged (cveRecords st) (idFromFilename (filename first))
    (idFromFilename (filename final)) batch = true →
  updateBatch repo batch commitHash needsIssue (st, ts)
    = (Ok (0, 0), (commit (begin st) st, ts)) ∧
  cveRecords (commit (begin st) st) = cveRecords st.
Proof.
  intros Hkey Hfirst Hlast Hall. split; [|reflexivity].
  destruct batch as [|f0 batch']; [discriminate|]. injection Hfirst as ->.
  unfold updateBatch. rewrite Hlast.
  unfold wrapM, RunTransaction, batchTransaction, bind, onFst. cbn [fst snd].
  set (startID := idFromFilename (filename first)) in *.
  set (endID := idFromFilename (filename final)) in *.
  destruct (GetCVERecords startID endID (begin st)) as [r tx] eqn:Hget.
  assert (Hr : r = Ok (filter (fun c => inRange startID endID (CVERecord.ID c) = true)
                         (map_to_list (cveRecords st)).*2) ∧ tx = begin st).
  { unfold GetCVERecords in Hget. simpl in Hget. by injection Hget as <- <-. }
  destruct Hr as [-> ->].
  rewrite batchLoop_all_unchanged; [reflexivity|].
  unfold allUnchanged in Hall. rewrite forallb_forall in Hall.
  apply Forall_forall. intros f Hf.
  apply list_elem_of_In, Hall in Hf. apply andb_true_iff in Hf as [Hin Hun].
  destruct (cveRecords st !! idFromFilename (filename f)) as [c|] eqn:Hc; [|done].
  destruct (GetCVERecords_in_range (begin st) startID endID
              (idFromFilename (filename f)) c (keyedByID_spec _ Hkey) Hc Hin)
    as (crs & Hcrs & Hidx).
  unfold GetCVERecords in Hcrs. simpl in Hcrs. injection Hcrs as <-.
  simpl in Hidx. by rewrite Hidx.
Qed.

(** ** Index expressions *)

Lemma groupFilesByDirectory_groups (files : list repoFile) (groups : list (list repoFile)) :
  groupFilesByDirectory files = Ok groups → Forall isRun groups.
Proof.
  rewrite groupFilesByDirectory_runs.
  destruct (checkSeen (runsFrom [] files) ∅) as [[]|e|p]; simpl; try discriminate.
  intros [= <-]. apply runsFrom_runs. by left.
Qed.

Lemma checkSeen_Err (groups : list (list repoFile)) (seen : gset string) (e : string) :
  checkSeen groups seen = Err e →
  ∃ g, g ∈ groups ∧
       e = "directory " +:+ groupDir g +:+ " is not contiguous in the sorted list of files".
Proof.
  revert seen. induction groups as [|g groups IH]; intros seen; simpl; [discriminate|].
  destruct g as [|d0 g]; [discriminate|].
  destruct (decide (dirPath d0 ∈ seen)).
  - intros [= <-]. exists (d0 :: g). split; [apply list_elem_of_here | done].
  - intros H. destruct (IH _ H) as (g' & Hg' & He). exists g'.
    split; [by apply list_elem_of_further | done].
Qed.

(** X13.  [groupFilesByDirectory] never panics: the index [dir[0]] of its
    second loop is within bounds, since no group it forms is empty.  When
    it returns groups, none is empty, and there is none only for an empty
    list; when it returns an error, the error names a directory of one of
    the files. *)
Theorem groupFilesByDirectory_total (files : list repoFile) :
  match groupFilesByDirectory files with
  | Ok groups => Forall (fun g => g ≠ []) groups ∧ (groups = [] ↔ files = [])
  | Err e =>
      ∃ d, d ∈ map dirPath files ∧
           e = "directory " +:+ d +:+ " is not contiguous in the sorted list of files"
  | Panic _ => False
  end.
Proof.
  pose proof (runsFrom_runs files [] (or_introl eq_refl)) as Hruns.
  pose proof (runsFrom_concat files []) as Hcat. simpl in Hcat.
  rewrite groupFilesByDirectory_runs.
  destruct (checkSeen_spec (runsFrom [] files) ∅ Hruns) as [(_ & _ & ->)|[_ [e He]]];
    simpl.
  - split.
    + eapply Forall_impl; [exact Hruns|]. by intros g [Hg _].
    + split.
      * intros H. by rewrite H in Hcat.
      * by intros ->.
  - rewrite He. simpl. apply checkSeen_Err in He as (g & Hg & ->).
    exists (groupDir g). split; [|done].
    rewrite Forall_forall in Hruns. destruct (Hruns g Hg) as [Hne _].
    destruct g as [|d0 g]; [done|]. simpl.
    apply list_elem_of_fmap. exists d0. split; [done|].
    rewrite <- Hcat. apply list_elem_of_In, in_concat. exists (d0 :: g).
    split; [by apply list_elem_of_In | by left].
Qed.

Lemma triageTransition_no_panic (old : CVERecord.t) (needs : bool) (m : CVERecord.t)
  (p : string) :
  triageTransition old needs m ≠ Panic p.
Proof.
  unfold triageTransition.
  destruct (String.eqb _ TriageStateNoActionNeeded); [done|].
  destruct (String.eqb _ TriageStateNeedsIssue); [done|].
  by destruct (_ || _).
Qed.

Lemma handleCVE_calm {T : Type} (repo : Repository) (f : repoFile)
  (old : option CVERecord.t) (commitHash : Hash) (needsIssue : triageFunc T)
  (s : Transaction * T) (p : string) :
  calm repo needsIssue →
  (handleCVE repo f old commitHash needsIssue s).1 ≠ Panic p.
Proof.
  intros [Hrepo Htri]. destruct s as [tx ts].
  destruct (blobReader repo (blobHash f)) as [[cve|e|q]|e|q] eqn:Hb.
  - destruct (needsAction needsIssue cve ts) as [[needs|e|q] ts1] eqn:Hn.
    + rewrite (handleCVE_decoded repo f old commitHash needsIssue tx ts cve needs ts1 Hb Hn).
      destruct old as [o|]; [|done].
      match goal with
      | |- context [triageTransition ?a ?b ?c] =>
          pose proof (triageTransition_no_panic a b c) as Hno;
          destruct (triageTransition a b c) as [m|e|q]
      end; simpl; [done|done|].
      by destruct (Hno q).
    + unfold handleCVE, wrapM, bind, fromRes.
      rewrite Hb, needsAction_step, Hn. by simpl.
    + exfalso. unfold needsAction in Hn.
      destruct (String.eqb _ _); [|discriminate].
      apply (Htri cve ts q). by rewrite Hn.
  - unfold handleCVE, wrapM, bind, fromRes. rewrite Hb. by simpl.
  - exfalso. unfold blobReader in Hb. by destruct (Hrepo (blobHash f) q) as [_ H].
  - unfold handleCVE, wrapM, bind, fromRes. rewrite Hb. by simpl.
  - exfalso. unfold blobReader in Hb. by destruct (Hrepo (blobHash f) q) as [H _].
Qed.

Lemma batchLoop_calm {T : Type} (repo : Repository) (commitHash : Hash)
  (needsIssue : triageFunc T) (idToRecord : gmap string CVERecord.t)
  (batch : list repoFile) :
  calm repo needsIssue →
  ∀ (numAdds numMods : Z) (s : Transaction * T) (p : string),
    (batchLoop repo commitHash needsIssue idToRecord batch numAdds numMods s).1 ≠ Panic p.
Proof.
  intros Hcalm. induction batch as [|f batch IH]; intros numAdds numMods s p; [done|].
  simpl. destruct (unchanged _ f); [apply IH|].
  unfold bind.
  pose proof (handleCVE_calm repo f (idToRecord !! idFromFilename (filename f))
                commitHash needsIssue s) as Hh.
  destruct (handleCVE _ _ _ _ _ _) as [[[|]|e|q] s1]; simpl in *.
  - apply IH.
  - apply IH.
  - done.
  - by destruct (Hh q Hcalm).
Qed.

Lemma last_cons_Some {A : Type} (x : A) (l : list A) : ∃ y, last (x :: l) = Some y.
Proof.
  revert x. induction l as [|z l IH]; intros x; [by exists x|].
  destruct (IH z) as [y Hy]. exists y. by rewrite last_cons, Hy.
Qed.

Lemma updateBatch_calm {T : Type} (repo : Repository) (batch : list repoFile)
  (commitHash : Hash) (needsIssue : triageFunc T) (s : MemStore * T) (p : string) :
  calm repo needsIssue → batch ≠ [] →
  (updateBatch repo batch commitHash needsIssue s).1 ≠ Panic p.
Proof.
  intros Hcalm Hne. destruct batch as [|first batch']; [done|].
  destruct (last_cons_Some first batch') as [final Hlast].
  unfold updateBatch. rewrite Hlast.
  unfold wrapM, RunTransaction, batchTransaction, bind, onFst, GetCVERecords.
  cbn [fst snd].
  set (idx := indexByID _).
  pose proof (batchLoop_calm repo commitHash needsIssue idx (first :: batch') Hcalm 0 0
                (begin s.1, s.2)) as Hb.
  destruct (batchLoop _ _ _ _ _ _ _ _) as [[n|e|q] [tx' ts']]; simpl in *;
    first [done | by destruct (Hb q)].
Qed.

Lemma directoryLoop_calm {T : Type} (repo : Repository) (commitHash : Hash)
  (needsIssue : triageFunc T) (batches : list (list repoFile)) :
  calm repo needsIssue →
  Forall (fun b => b ≠ []) batches →
  ∀ (numProc numAdds numMods : Z) (s : MemStore * T) (p : string),
    (directoryLoop repo commitHash needsIssue batches numProc numAdds numMods s).1 ≠ Panic p.
Proof.
  intros Hcalm. induction 1 as [|batch batches Hb Hbs IH];
    intros numProc numAdds numMods s p; [done|].
  simpl. unfold bind.
  pose proof (updateBatch_calm repo batch commitHash needsIssue s) as Hu.
  destruct (updateBatch _ _ _ _ _) as [[n|e|q] s1]; simpl in *.
  - apply IH.
  - done.
  - by destruct (Hu q Hcalm Hb).
Qed.

Lemma updateDirectory_calm {T : Type} (repo : Repository) (dirFiles : list repoFile)
  (commitHash : Hash) (needsIssue : triageFunc T) (s : MemStore * T) (p : string) :
  calm repo needsIssue → dirFiles ≠ [] →
  (updateDirectory repo dirFiles commitHash needsIssue s).1 ≠ Panic p.
Proof.
  intros Hcalm Hne. destruct dirFiles as [|d0 rest]; [done|]. destruct s as [st ts].
  rewrite updateDirectory_unfold.
  destruct (String.eqb _ _); [done|].
  pose proof (directoryLoop_calm repo commitHash needsIssue (windows (d0 :: rest)) Hcalm
                (windowsFrom_nonempty _ _) 0 0 0
                ((SetDirectoryHash (dirPath d0) inProgress st).2, ts)) as Hl.
  destruct (directoryLoop _ _ _ _ _ _ _ _) as [[counts|e|q] [st2 ts2]]; simpl in *;
    first [done | by destruct (Hl q)].
Qed.

Lemma directoriesLoop_calm {T : Type} (repo : Repository) (commitHash : Hash)
  (needsIssue : triageFunc T) (endedAt : Z) (filesByDir : list (list repoFile)) :
  calm repo needsIssue →
  Forall (fun g => g ≠ []) filesByDir →
  ∀ (ur : CommitUpdateRecord.t) (s : MemStore * T) (p : string),
    (directoriesLoop repo commitHash needsIssue endedAt filesByDir ur s).1 ≠ Panicked p.
Proof.
  intros Hcalm. induction 1 as [|g groups Hg Hgs IH]; intros ur s p; [done|].
  simpl.
  pose proof (updateDirectory_calm repo g commitHash needsIssue s) as Hu.
  destruct (updateDirectory _ _ _ _ _) as [[[[np na] nm]|e|q] s1]; simpl in *.
  - apply IH.
  - apply IH.
  - by destruct (Hu q Hcalm Hg).
Qed.

(** ** The walk, entry by entry *)

Lemma Atoi_no_panic (s p : string) : Atoi s ≠ Panic p.
Proof.
  unfold Atoi.
  destruct (match s with
            | String "-"%char rest => (true, rest)
            | String "+"%char rest => (false, rest)
            | _ => (false, s)
            end) as [neg digits].
  destruct digits as [|c digits]; [done|].
  destruct (parseDigits _ 0) as [n|]; [|done].
  by destruct (_ && _).
Qed.

(** The second slice of [walkFiles], [e.Name[9:len(e.Name)-5]], is within
    bounds from fourteen bytes on. *)
Lemma slice_number_ok (name : string) :
  (14 <= len name)%nat →
  slice name 9 (len name - 5) = Ok (String.substring 9 (len name - 5 - 9) name).
Proof.
  intros H. unfold slice.
  destruct (Nat.leb_spec 9 (len name - 5)) as [_|?]; [|lia].
  destruct (Nat.leb_spec (len name - 5) (len name)) as [_|?]; [done | lia].
Qed.

Lemma calmEntries_eq (h : Hash) (es : list TreeEntry) :
  lookupsCalm (mkTree h es) = calmEntries es.
Proof. reflexivity. Qed.

Lemma walkEntries_no_panic (h : Hash) (es : list TreeEntry) :
  Forall (fun e => match e with
                   | mkTreeEntry _ _ _ (Ok t) =>
                       lookupsCalm t = true →
                       Forall (fun n => (14 <= len n)%nat) (leafNames t) →
                       ∀ dirpath files p, walkFiles t dirpath files ≠ Panic p
                   | _ => True
                   end) es →
  calmEntries es = true →
  Forall (fun n => (14 <= len n)%nat) (leafEntries es) →
  ∀ dirpath files p, walkEntries h dirpath es files ≠ Panic p.
Proof.
  induction 1 as [|[name mode eh obj] es He Hes IH]; intros Hcalm Hlen dirpath files p;
    [done|].
  simpl in Hcalm. apply andb_true_iff in Hcalm as [Hc Hcs].
  simpl leafEntries in Hlen. apply Forall_app in Hlen as [Hl Hls].
  simpl. destruct (isDir mode).
  - destruct obj as [dir|e|q]; simpl; [|done|discriminate].
    specialize (He Hc Hl (pathJoin dirpath name) files).
    destruct (walkFiles dir _ files) as [files1|e|q]; simpl; [by apply IH | done |].
    by destruct (He q).
  - destruct (isCVEFilename name) eqn:Hcve; [|by apply IH].
    apply Forall_inv in Hl.
    rewrite (slice_year_ok name Hcve), (slice_number_ok name Hl). simpl.
    pose proof (Atoi_no_panic (String.substring 4 4 name)) as Hy.
    destruct (Atoi (String.substring 4 4 name)) as [y|e|q]; simpl;
      [|done|by destruct (Hy q)].
    pose proof (Atoi_no_panic (String.substring 9 (len name - 5 - 9) name)) as Hn.
    destruct (Atoi (String.substring 9 _ name)) as [n|e|q]; simpl;
      [by apply IH|done|by destruct (Hn q)].
Qed.

Lemma walkFiles_no_panic (t : Tree) :
  lookupsCalm t = true →
  Forall (fun n => (14 <= len n)%nat) (leafNames t) →
  ∀ dirpath files p, walkFiles t dirpath files ≠ Panic p.
Proof.
  induction t as [h es IH] using Tree_nested_ind.
  rewrite calmEntries_eq, leafNames_eq. intros Hc Hl dirpath files p.
  rewrite walkFiles_eq. by apply walkEntries_no_panic.
Qed.

Lemma groupFilesByDirectory_no_panic (files : list repoFile) (p : string) :
  groupFilesByDirectory files ≠ Panic p.
Proof.
  pose proof (runsFrom_runs files [] (or_introl eq_refl)) as Hruns.
  rewrite groupFilesByDirectory_runs.
  destruct (checkSeen_spec (runsFrom [] files) ∅ Hruns) as [(_ & _ & ->)|[_ [e ->]]];
    by simpl.
Qed.

Lemma wrapErr_Returned (prefix : string) (r : UpdateResult) :
  (∃ ur err, r = Returned ur err) → ∃ ur err, wrapErr prefix r = Returned ur err.
Proof. intros (ur & [e|] & ->); simpl; eauto. Qed.

(** X14.  The index expressions of the run are within bounds but for one:
    [doUpdate] returns, and does not panic, when no name that passes
    [isCVEFilename] in the tree of the commit has fewer than fourteen
    bytes, provided the repository and the triage function do not panic
    themselves.  So [dir[0]], [dirFiles[0]], [batch[0]] and
    [batch[len(batch)-1]] never fail, and [e.Name[9:len(e.Name)-5]] fails
    on short names only. *)
Theorem doUpdate_returns {T : Type} (repo : Repository) (commitHash : Hash)
  (needsIssue : triageFunc T) (startedAt endedAt : Z) (s : MemStore * T)
  (commit : Commit) (root : Tree) :
  calm repo needsIssue →
  CommitObject repo commitHash = Ok commit →
  rootTree commit = Ok root →
  lookupsCalm root = true →
  Forall (fun name => (14 <= len name)%nat) (leafNames root) →
  ∃ ur err, (doUpdate repo commitHash needsIssue startedAt endedAt s).1 = Returned ur err.
Proof.
  intros Hcalm Hcommit Hroot Hlook Hlen.
  unfold doUpdate. rewrite Hcommit. cbn [fst].
  apply wrapErr_Returned.
  unfold repoCVEFiles. rewrite Hroot. cbn [bindRes].
  pose proof (walkFiles_no_panic root Hlook Hlen "" []) as Hwalk.
  destruct (walkFiles root "" []) as [files|e|q]; cbn [bindRes Wrap];
    [|by eauto|by destruct (Hwalk q)].
  pose proof (groupFilesByDirectory_no_panic (sortSlice less files)) as Hgp.
  pose proof (groupFilesByDirectory_groups (sortSlice less files)) as Hgr.
  destruct (groupFilesByDirectory (sortSlice less files)) as [groups|e|q];
    [|by eauto|by destruct (Hgp q)].
  set (ur0 := {| CommitUpdateRecord.StartedAt := startedAt |}).
  cbv [onFst CreateCommitUpdateRecord].
  match goal with
  | |- ∃ ur err, (directoriesLoop ?r ?c ?n ?e ?g ?u ?st).1 = _ =>
      pose proof (directoriesLoop_calm r c n e g Hcalm) as Hloop;
      destruct (directoriesLoop r c n e g u st) as [[ur err|q] s'] eqn:Hd
  end.
  - simpl. eauto.
  - exfalso. eapply Hloop; [|by erewrite Hd].
    eapply Forall_impl; [exact (Hgr groups eq_refl)|]. by intros g [Hg _].
Qed.

Lemma leafEntries_accepted (es : list TreeEntry) :
  Forall (fun e => match e with
                   | mkTreeEntry _ _ _ (Ok t) =>
                       Forall (fun n => isCVEFilename n = true) (leafNames t)
                   | _ => True
                   end) es →
  Forall (fun n => isCVEFilename n = true) (leafEntries es).
Proof.
  induction 1 as [|[name mode eh obj] es He Hes IH]; [constructor|].
  simpl. apply Forall_app. split; [|exact IH].
  destruct (isDir mode).
  - destruct obj; [exact He | constructor | constructor].
  - destruct (isCVEFilename name) eqn:Hcve; [|constructor].
    by apply Forall_singleton.
Qed.

Lemma leafNames_accepted (t : Tree) :
  Forall (fun n => isCVEFilename n = true) (leafNames t).
Proof.
  induction t as [h es IH] using Tree_nested_ind.
  rewrite leafNames_eq. by apply leafEntries_accepted.
Qed.

Lemma walkEntries_shape (h : Hash) (es : list TreeEntry) :
  Forall (fun e => match e with
                   | mkTreeEntry _ _ _ (Ok t) =>
                       ∀ dirpath files out,
                         walkFiles t dirpath files = Ok out →
                         ∃ new, out = files ++ new ∧ Forall2 parsedAs (leafNames t) new
                   | _ => True
                   end) es →
  ∀ dirpath files out,
    walkEntries h dirpath es files = Ok out →
    ∃ new, out = files ++ new ∧ Forall2 parsedAs (leafEntries es) new.
Proof.
  induction 1 as [|[name mode eh obj] es He Hes IH]; intros dirpath files out Hw.
  - simpl in Hw. injection Hw as <-. exists []. by rewrite app_nil_r.
  - simpl in Hw. simpl leafEntries. destruct (isDir mode).
    + apply bindRes_Ok in Hw as (dir & -> & Hw).
      apply bindRes_Ok in Hw as (files1 & Hdir & Hw).
      apply He in Hdir as (new1 & -> & H1). apply IH in Hw as (new2 & -> & H2).
      exists (new1 ++ new2). split; [by rewrite app_assoc|].
      by apply Forall2_app.
    + destruct (isCVEFilename name) eqn:Hcve.
      * apply bindRes_Ok in Hw as (y & Hy & Hw).
        apply bindRes_Ok in Hw as (yr & Hyr & Hw).
        apply bindRes_Ok in Hw as (n & Hn & Hw).
        apply bindRes_Ok in Hw as (nr & Hnr & Hw).
        apply IH in Hw as (new2 & -> & H2).
        eexists (_ :: new2). split; [by rewrite <- app_assoc|].
        simpl. constructor; [|exact H2].
        repeat split; simpl; eauto.
      * apply IH in Hw as (new2 & -> & H2). by exists new2.
Qed.

Lemma walkFiles_shape (t : Tree) :
  ∀ dirpath files out,
    walkFiles t dirpath files = Ok out →
    ∃ new, out = files ++ new ∧ Forall2 parsedAs (leafNames t) new.
Proof.
  induction t as [h es IH] using Tree_nested_ind.
  intros dirpath files out. rewrite walkFiles_eq, leafNames_eq.
  by apply walkEntries_shape.
Qed.

(** X15.  A walk that succeeds returns the files it was given, in their
    order, followed by one file per entry that passes [isCVEFilename], in
    the order of the tree, directories walked where they stand: no entry is
    left out, none is taken twice, and no file has a name that fails the
    filter. *)
Theorem walkFiles_appends_leaves (tree : Tree) (dirpath : string)
  (files out : list repoFile) :
  walkFiles tree dirpath files = Ok out →
  ∃ new, out = files ++ new ∧
         Forall2 parsedAs (leafNames tree) new ∧
         Forall (fun f => isCVEFilename (filename f) = true) new.
Proof.
  intros Hw. destruct (walkFiles_shape tree dirpath files out Hw) as (new & -> & Hp).
  exists new. split; [done|]. split; [done|].
  pose proof (leafNames_accepted tree) as Hacc. clear Hw.
  induction Hp as [|name f names new' Hnf Hp IH]; [constructor|].
  apply Forall_cons in Hacc as [Hn Hacc]. constructor; [|by apply IH].
  destruct Hnf as [-> _]. exact Hn.
Qed.

(** ** File names and IDs *)

Lemma substring_app_l (a b : string) : String.substring 0 (len a) (a +:+ b) = a.
Proof.
  unfold len. induction a as [|c a IH]; simpl.
  - by destruct b.
  - by rewrite IH.
Qed.

Lemma substring_full (b : string) : String.substring 0 (len b) b = b.
Proof. unfold len. induction b as [|c b IH]; simpl; [done | by rewrite IH]. Qed.

Lemma substring_app_r (a b : string) :
  String.substring (len a) (len b) (a +:+ b) = b.
Proof.
  unfold len. induction a as [|c a IH]; simpl; [apply substring_full | exact IH].
Qed.

Lemma TrimSuffix_app (pre suffix : string) : TrimSuffix (pre +:+ suffix) suffix = pre.
Proof.
  unfold TrimSuffix. rewrite len_app.
  replace (len pre + len suffix - len suffix)%nat with (len pre) by lia.
  destruct (Nat.leb_spec (len suffix) (len pre + len suffix)) as [_|?]; [|lia].
  rewrite substring_app_r, String.eqb_refl. simpl. apply substring_app_l.
Qed.

Lemma stripSlashes_none (l : list ascii) :
  forallb (fun c => negb (Ascii.eqb c "/")) l = true → stripSlashes l = l.
Proof.
  destruct l as [|c l]; [done|]. simpl. intros [Hc _]%andb_true_iff.
  by destruct (Ascii.eqb c "/").
Qed.

Lemma afterLastSlash_none (l : list ascii) (after : string) :
  forallb (fun c => negb (Ascii.eqb c "/")) l = true →
  afterLastSlash l after = String.string_of_list_ascii (rev l) +:+ after.
Proof.
  revert after. induction l as [|c l IH]; intros after; [done|].
  simpl. intros [Hc Hl]%andb_true_iff.
  destruct (Ascii.eqb c "/"); [done|].
  rewrite (IH _ Hl), string_of_list_app, append_assoc. reflexivity.
Qed.

Lemma forallb_rev {A : Type} (f : A → bool) (l : list A) :
  forallb f l = true → forallb f (rev l) = true.
Proof.
  rewrite !forallb_forall. intros H x Hx. apply H. by apply in_rev.
Qed.

(** [path.Base] of a non-empty path without a slash is the path. *)
Lemma Base_no_slash (name : string) :
  name ≠ "" →
  forallb (fun c => negb (Ascii.eqb c "/")) (String.list_ascii_of_string name) = true →
  Base name = name.
Proof.
  intros Hne Hns. unfold Base.
  destruct (String.eqb_spec name "") as [?|_]; [done|].
  apply forallb_rev in Hns.
  rewrite (stripSlashes_none _ Hns), (afterLastSlash_none _ _ Hns).
  rewrite rev_involutive, String.string_of_list_ascii_of_string, append_nil_r.
  by destruct (String.eqb_spec name "").
Qed.

(** X16.  For the name of a tree entry, which holds no slash, that passes
    [isCVEFilename]: [idFromFilename] takes the extension off and nothing
    else, so the name is the ID followed by ".json", and two such names
    with the same ID are the same name. *)
Theorem idFromFilename_round_trip (name : string) :
  isCVEFilename name = true →
  forallb (fun c => negb (Ascii.eqb c "/")) (String.list_ascii_of_string name) = true →
  idFromFilename name +:+ ".json" = name ∧
  ∀ other,
    isCVEFilename other = true →
    forallb (fun c => negb (Ascii.eqb c "/")) (String.list_ascii_of_string other) = true →
    idFromFilename other = idFromFilename name → other = name.
Proof.
  assert (Hrt : ∀ n, isCVEFilename n = true →
                     forallb (fun c => negb (Ascii.eqb c "/"))
                       (String.list_ascii_of_string n) = true →
                     idFromFilename n +:+ ".json" = n).
  { intros n Hcve Hns. pose proof (isCVEFilename_len n Hcve) as Hlen.
    unfold isCVEFilename in Hcve. apply andb_true_iff in Hcve as [_ He].
    apply String.eqb_eq in He. unfold idFromFilename. rewrite He.
    rewrite Base_no_slash; [|by intros ->|done].
    destruct (Ext_json n He) as [pre Hpre].
    rewrite Hpre at 1. rewrite TrimSuffix_app. by symmetry. }
  intros Hcve Hns. split; [by apply Hrt|].
  intros other Hcve' Hns' Hid.
  rewrite <- (Hrt other Hcve' Hns'), <- (Hrt name Hcve Hns). by rewrite Hid.
Qed.

(** ** The further properties at sample inputs *)

Lemma updateDirectory_counts_witness :
  firstDirectory = (Ok (1, 1, 0), firstDirectory.2) ∧
  ((marked emptyStore [file2019] ∧ 1 = 0 ∧ 1 = 0 ∧ 0 = 0 ∧
    firstDirectory.2 = (emptyStore, [])) ∨
   (¬ marked emptyStore [file2019] ∧ 1 = Z.of_nat (length [file2019]) ∧
    0 <= 1 ∧ 0 <= 0 ∧ 1 + 0 <= 1)).
Proof.
  assert (H : updateDirectory threeDirsFullRepo [file2019] (hashOf Byte.xc0)
                (recordingTriage true) (emptyStore, [])
              = (Ok (1, 1, 0), firstDirectory.2)) by (vm_compute; reflexivity).
  split; [exact H|].
  exact (updateDirectory_counts threeDirsFullRepo [file2019] (hashOf Byte.xc0)
           (recordingTriage true) (emptyStore, []) firstDirectory.2 1 1 0 H).
Defined.

Lemma updateDirectory_twice_witness :
  firstDirectory = (Ok (1, 1, 0), firstDirectory.2) ∧
  updateDirectory threeDirsFullRepo [file2019] (hashOf Byte.xc0) (recordingTriage false)
    firstDirectory.2 = (Ok (0, 0, 0), firstDirectory.2).
Proof.
  assert (H : updateDirectory threeDirsFullRepo [file2019] (hashOf Byte.xc0)
                (recordingTriage true) (emptyStore, [])
              = (Ok (1, 1, 0), firstDirectory.2)) by (vm_compute; reflexivity).
  split; [exact H|].
  exact (updateDirectory_twice threeDirsFullRepo [file2019] (hashOf Byte.xc0)
           (recordingTriage true) (recordingTriage false) (emptyStore, [])
           firstDirectory.2 (1, 1, 0) H).
Defined.


Lemma doUpdate_run_record_witness :
  fullRun = (Returned (Some fullRunRecord) None, fullRun.2) ∧
  (None : option string) = None ∧
  CommitUpdateRecord.StartedAt fullRunRecord = 10 ∧
  CommitUpdateRecord.EndedAt fullRunRecord = 20 ∧
  CommitUpdateRecord.CommitHash fullRunRecord = HashString (hashOf Byte.xc0) ∧
  (∃ commit files,
      CommitObject threeDirsFullRepo (hashOf Byte.xc0) = Ok commit ∧
      repoCVEFiles commit = Ok files ∧
      CommitUpdateRecord.CommitTime fullRunRecord = CommitterWhen commit ∧
      CommitUpdateRecord.NumTotal fullRunRecord = Z.of_nat (length files)) ∧
  0 <= CommitUpdateRecord.NumAdded fullRunRecord ∧
  0 <= CommitUpdateRecord.NumModified fullRunRecord ∧
  CommitUpdateRecord.NumAdded fullRunRecord + CommitUpdateRecord.NumModified fullRunRecord
    <= CommitUpdateRecord.NumProcessed fullRunRecord ∧
  CommitUpdateRecord.NumProcessed fullRunRecord <= CommitUpdateRecord.NumTotal fullRunRecord ∧
  updateRecords fullRun.2.1 !! HashString (hashOf Byte.xc0) = Some fullRunRecord.
Proof.
  assert (H : doUpdate threeDirsFullRepo (hashOf Byte.xc0) (recordingTriage true) 10 20
                (emptyStore, []) = (Returned (Some fullRunRecord) None, fullRun.2))
    by (vm_compute; reflexivity).
  split; [exact H|].
  exact (doUpdate_run_record threeDirsFullRepo (hashOf Byte.xc0) (recordingTriage true)
           10 20 (emptyStore, []) fullRun.2 fullRunRecord None H).
Defined.

Lemma doUpdate_nil_record_witness :
  doUpdate strayRepo (hashOf Byte.xc0) (recordingTriage true) 10 20 (emptyStore, [])
    = (Returned None (Some strayError), (emptyStore, [])) ∧
  (emptyStore, @nil string) = (emptyStore, []) ∧
  ∃ e, Some strayError
       = Some (("doUpdate(" +:+ HashString (hashOf Byte.xc0) +:+ ")") +:+ ": " +:+ e) ∧
       (CommitObject strayRepo (hashOf Byte.xc0) = Err e ∨
        ∃ commit, CommitObject strayRepo (hashOf Byte.xc0) = Ok commit ∧
                  (repoCVEFiles commit = Err e ∨
                   ∃ files, repoCVEFiles commit = Ok files ∧
                            groupFilesByDirectory files = Err e)).
Proof.
  assert (H : doUpdate strayRepo (hashOf Byte.xc0) (recordingTriage true) 10 20
                (emptyStore, []) = (Returned None (Some strayError), (emptyStore, [])))
    by (vm_compute; reflexivity).
  split; [exact H|].
  exact (doUpdate_nil_record strayRepo (hashOf Byte.xc0) (recordingTriage true) 10 20
           (emptyStore, []) (emptyStore, []) (Some strayError) H).
Defined.

Lemma updateBatch_all_unchanged_witness :
  keyedByID (cveRecords fullRun.2.1) = true ∧
  head [file2019] = Some file2019 ∧
  last [file2019] = Some file2019 ∧
  allUnchanged (cveRecords fullRun.2.1) (idFromFilename (filename file2019))
    (idFromFilename (filename file2019)) [file2019] = true ∧
  updateBatch threeDirsFullRepo [file2019] (hashOf Byte.xc1) (recordingTriage true)
    (fullRun.2.1, [])
    = (Ok (0, 0), (commit (begin fullRun.2.1) fullRun.2.1, [])) ∧
  cveRecords (commit (begin fullRun.2.1) fullRun.2.1) = cveRecords fullRun.2.1.
Proof.
  assert (Hk : keyedByID (cveRecords fullRun.2.1) = true) by (vm_compute; reflexivity).
  assert (Hu : allUnchanged (cveRecords fullRun.2.1) (idFromFilename (filename file2019))
                 (idFromFilename (filename file2019)) [file2019] = true)
    by (vm_compute; reflexivity).
  split; [exact Hk|]. split; [reflexivity|]. split; [reflexivity|]. split; [exact Hu|].
  exact (updateBatch_all_unchanged threeDirsFullRepo [file2019] file2019 file2019
           (hashOf Byte.xc1) (recordingTriage true) fullRun.2.1 [] Hk eq_refl eq_refl Hu).
Defined.

Lemma doUpdate_returns_witness :
  calm threeDirsFullRepo (recordingTriage true) ∧
  CommitObject threeDirsFullRepo (hashOf Byte.xc0) = Ok (commitOf threeDirs) ∧
  rootTree (commitOf threeDirs) = Ok threeDirs ∧
  lookupsCalm threeDirs = true ∧
  Forall (fun name => (14 <= len name)%nat) (leafNames threeDirs) ∧
  ∃ ur err,
    (doUpdate threeDirsFullRepo (hashOf Byte.xc0) (recordingTriage true) 10 20
       (emptyStore, [])).1 = Returned ur err.
Proof.
  assert (Hcalm : calm threeDirsFullRepo (recordingTriage true)).
  { split.
    - intros h p. unfold threeDirsFullRepo, repoOf, repoAt. cbn [BlobObject].
      destruct (find _ _); split; discriminate.
    - intros cve ts p. discriminate. }
  assert (Hlen : Forall (fun name => (14 <= len name)%nat) (leafNames threeDirs)).
  { repeat (constructor; [unfold len; simpl; lia|]). constructor. }
  split; [exact Hcalm|]. split; [reflexivity|]. split; [reflexivity|].
  split; [reflexivity|]. split; [exact Hlen|].
  exact (doUpdate_returns threeDirsFullRepo (hashOf Byte.xc0) (recordingTriage true) 10 20
           (emptyStore, []) (commitOf threeDirs) threeDirs Hcalm eq_refl eq_refl eq_refl
           Hlen).
Defined.

Lemma walkFiles_appends_leaves_witness :
  walkFiles threeDirs "" [] = Ok [file2019; file2020; file2021] ∧
  ∃ new, [file2019; file2020; file2021] = [] ++ new ∧
         Forall2 parsedAs (leafNames threeDirs) new ∧
         Forall (fun f => isCVEFilename (filename f) = true) new.
Proof.
  assert (H : walkFiles threeDirs "" [] = Ok [file2019; file2020; file2021])
    by reflexivity.
  split; [exact H|].
  exact (walkFiles_appends_leaves threeDirs "" [] [file2019; file2020; file2021] H).
Defined.

Lemma idFromFilename_round_trip_witness :
  isCVEFilename "CVE-2020-0001.json" = true ∧
  forallb (fun c => negb (Ascii.eqb c "/"))
    (String.list_ascii_of_string "CVE-2020-0001.json") = true ∧
  idFromFilename "CVE-2020-0001.json" +:+ ".json" = "CVE-2020-0001.json" ∧
  ∀ other,
    isCVEFilename other = true →
    forallb (fun c => negb (Ascii.eqb c "/")) (String.list_ascii_of_string other) = true →
    idFromFilename other = idFromFilename "CVE-2020-0001.json" →
    other = "CVE-2020-0001.json".
Proof.
  split; [reflexivity|]. split; [reflexivity|].
  exact (idFromFilename_round_trip "CVE-2020-0001.json" eq_refl eq_refl).
Defined.
